(** * Pre-processing of fluorescence movies: noise estimation and AR fitting

    A shallow embedding of [ca_source_extraction/pre_processing.py] and the
    properties of its noise-power pipeline ([mean_psd], [get_noise_fft],
    [fft_psd_parallel], [get_noise_fft_parallel]) and of its time-constant
    estimator ([nextpow2], [axcov], [estimate_time_constant]).

    Numbers.  Python integers are [Z].  NumPy doubles are idealised: finite
    values are real numbers ([R]) with exact arithmetic, and the IEEE special
    values that the code can produce (the logarithm of zero, the mean of an
    empty slice) are kept, see [fval].  The frequency grid, which the code
    builds with [np.arange] from [1./T], is computed over the rationals
    ([Q]), so that band membership is decidable and can be evaluated.

    Errors.  A Python call either returns or raises; [result] carries the
    exception.

    Names.  [axcov] and the one-dimensional branch of [get_noise_fft] call
    [fft], [ifft] and [rfft] by their bare names, which the module does not
    bind; the functions take the module's globals as a [namespace], so that
    they can be read both as written ([module_globals]) and with NumPy's
    transforms bound ([numpy_fft_globals]).

    Layout.  The embedding comes first, then the vocabulary of the
    statements, then the proofs: the frequency grid and band mask, the noise
    of a movie, sums over roots of unity, the block partition and the shared
    buffer of the parallel estimator, and the autocovariance. *)

From Stdlib Require Import String Ascii.
From Stdlib Require Import Reals Lra Lia ZArith QArith Qround Bool Arith List
  Permutation Sorted.
From Equations Require Import Equations.
Import ListNotations.

(** ** Exceptions and the result of a call *)

Inductive exn : Type :=
| Exception (msg : string)
| NameError (name : string)
| IndexError
| ValueError
| TypeError
| ZeroDivisionError.

Inductive result (A : Type) : Type :=
| Ok (a : A)
| Raise (e : exn).

Arguments Ok {A} a.
Arguments Raise {A} e.

Definition bind {A B : Type} (m : result A) (k : A -> result B) : result B :=
  match m with
  | Ok a => k a
  | Raise e => Raise e
  end.

Notation "x <- m ;; k" := (bind m (fun x => k))
  (at level 61, m at next level, right associativity).

Definition raises {A : Type} (m : result A) : Prop :=
  exists e, m = Raise e.

Definition returns {A : Type} (m : result A) : Prop :=
  exists a, m = Ok a.

(** [for x in xs: body x], stopping at the first exception. *)
Fixpoint mapM {A B : Type} (f : A -> result B) (xs : list A) : result (list B) :=
  match xs with
  | [] => Ok []
  | x :: xs' => y <- f x ;; ys <- mapM f xs' ;; Ok (y :: ys)
  end.

(** [for x in xs: s = body x s], stopping at the first exception. *)
Fixpoint foldM {A S : Type} (f : A -> S -> result S) (xs : list A) (s : S)
  : result S :=
  match xs with
  | [] => Ok s
  | x :: xs' => s' <- f x s ;; foldM f xs' s'
  end.

(** ** Python integers and sequences *)

Open Scope Z_scope.

(** Python 2 [range(start, stop, step)]: a list; a zero step is a
    [ValueError]. *)
Definition py_range (start stop step : Z) : result (list Z) :=
  if step =? 0 then Raise ValueError
  else if 0 <? step then
    Ok (map (fun k => start + Z.of_nat k * step)
            (seq 0 (Z.to_nat ((stop - start + step - 1) / step))))
  else
    Ok (map (fun k => start + Z.of_nat k * step)
            (seq 0 (Z.to_nat ((start - stop - step - 1) / (- step))))).

(** [range(a, b)], step one: never raises. *)
Definition py_range1 (start stop : Z) : list Z :=
  map (fun k => start + Z.of_nat k) (seq 0 (Z.to_nat (stop - start))).

(** Python [a % b]: the sign of the divisor, which is Rocq's [Z.modulo];
    a zero divisor raises. *)
Definition py_mod (a b : Z) : result Z :=
  if b =? 0 then Raise ZeroDivisionError else Ok (a mod b).

(** Python 2 [a / b] on integers: floor division. *)
Definition py_floordiv (a b : Z) : result Z :=
  if b =? 0 then Raise ZeroDivisionError else Ok (a / b).

(** Index normalisation of a sequence of length [n]: negative indices count
    from the end; anything else out of bounds is an [IndexError]. *)
Definition norm_index (n : nat) (i : Z) : result nat :=
  if (0 <=? i) && (i <? Z.of_nat n) then Ok (Z.to_nat i)
  else if (i <? 0) && (- Z.of_nat n <=? i) then Ok (Z.to_nat (i + Z.of_nat n))
  else Raise IndexError.

(** [a[i]]. *)
Definition get_item {A : Type} (a : list A) (i : Z) : result A :=
  k <- norm_index (length a) i ;;
  match nth_error a k with
  | Some x => Ok x
  | None => Raise IndexError
  end.

(** [a[idxs]] for a list of integer indices (fancy indexing). *)
Definition take_idxs {A : Type} (a : list A) (idxs : list Z) : result (list A) :=
  mapM (get_item a) idxs.

Fixpoint list_set {A : Type} (a : list A) (k : nat) (v : A) : list A :=
  match a, k with
  | [], _ => []
  | _ :: a', O => v :: a'
  | x :: a', S k' => x :: list_set a' k' v
  end.

Close Scope Z_scope.

(** ** Idealised doubles *)

Open Scope R_scope.

(** A NumPy double: a real number, or one of the IEEE special values. *)
Inductive fval : Type :=
| Fin (r : R)
| PInf
| NInf
| NaN.

Definition fadd (a b : fval) : fval :=
  match a, b with
  | NaN, _ | _, NaN => NaN
  | PInf, NInf | NInf, PInf => NaN
  | PInf, _ | _, PInf => PInf
  | NInf, _ | _, NInf => NInf
  | Fin x, Fin y => Fin (x + y)
  end.

Definition fneg (a : fval) : fval :=
  match a with
  | Fin x => Fin (- x)
  | PInf => NInf
  | NInf => PInf
  | NaN => NaN
  end.

Definition fsub (a b : fval) : fval := fadd a (fneg b).

(** The sign of a finite value, for products and quotients with infinities. *)
Definition fsign (x : R) : comparison :=
  if Rlt_dec 0 x then Gt else if Rlt_dec x 0 then Lt else Eq.

Definition finf_signed (c : comparison) : fval :=
  match c with
  | Gt => PInf
  | Lt => NInf
  | Eq => NaN
  end.

Definition fmul (a b : fval) : fval :=
  match a, b with
  | NaN, _ | _, NaN => NaN
  | Fin x, Fin y => Fin (x * y)
  | Fin x, PInf | PInf, Fin x => finf_signed (fsign x)
  | Fin x, NInf | NInf, Fin x => finf_signed (CompOpp (fsign x))
  | PInf, PInf | NInf, NInf => PInf
  | PInf, NInf | NInf, PInf => NaN
  end.

(** [x / d] for two finite doubles: a zero divisor gives an infinity or, for
    [0 / 0], not-a-number (NumPy warns, it does not raise). *)
Definition fdiv_R (x d : R) : fval :=
  if Req_dec_T d 0 then finf_signed (fsign x) else Fin (x / d).

(** [a / n] for a double and a count. *)
Definition fdiv_count (a : fval) (n : nat) : fval :=
  match a with
  | Fin x => fdiv_R x (INR n)
  | PInf => PInf
  | NInf => NInf
  | NaN => NaN
  end.

(** [np.log]. *)
Definition np_log (x : R) : fval :=
  if Rlt_dec 0 x then Fin (ln x)
  else if Rlt_dec x 0 then NaN
  else NInf.

(** [np.exp]. *)
Definition np_exp (a : fval) : fval :=
  match a with
  | Fin x => Fin (exp x)
  | PInf => PInf
  | NInf => Fin 0
  | NaN => NaN
  end.

(** [np.sqrt]. *)
Definition np_sqrt (a : fval) : fval :=
  match a with
  | Fin x => if Rlt_dec x 0 then NaN else Fin (sqrt x)
  | PInf => PInf
  | NInf => NaN
  | NaN => NaN
  end.

Definition fsum (l : list fval) : fval := fold_left fadd l (Fin 0).

(** [np.mean] along the last axis: the mean of an empty slice is
    not-a-number. *)
Definition np_mean (l : list fval) : fval :=
  match l with
  | [] => NaN
  | _ => fdiv_count (fsum l) (length l)
  end.

Fixpoint Rinsert (x : R) (l : list R) : list R :=
  match l with
  | [] => [x]
  | y :: l' => if Rle_dec x y then x :: l else y :: Rinsert x l'
  end.

Definition Rsort (l : list R) : list R := fold_right Rinsert [] l.

(** [np.median] along the last axis: the middle of the sorted values, the
    mean of the two middle ones for an even count, not-a-number for an empty
    slice. *)
Definition np_median (l : list R) : fval :=
  let s := Rsort l in
  let n := length l in
  match n with
  | O => NaN
  | _ =>
    if Nat.even n
    then Fin ((nth (n / 2 - 1) s 0 + nth (n / 2) s 0) / 2)
    else Fin (nth (n / 2) s 0)
  end.

(** ** Complex numbers and the discrete Fourier transform *)

Definition C : Type := (R * R)%type.

Definition Cre (z : C) : R := fst z.
Definition Cim (z : C) : R := snd z.
Definition Cadd (z w : C) : C := (fst z + fst w, snd z + snd w).
Definition Cmul (z w : C) : C :=
  (fst z * fst w - snd z * snd w, fst z * snd w + snd z * fst w).
Definition Cscal (a : R) (z : C) : C := (a * fst z, a * snd z).
Definition Cabs (z : C) : R := sqrt (fst z * fst z + snd z * snd z).
Definition cis (t : R) : C := (cos t, sin t).
Definition Csum (l : list C) : C := fold_right Cadd (0, 0) l.

(** The [k]-th coefficient of the length-[n] transform of [a] (read as zero
    beyond its end), with the sign of the exponent as a parameter. *)
Definition dft_coef (sgn : R) (a : list R) (n k : nat) : C :=
  Csum (map (fun j => Cscal (nth j a 0)
                        (cis (sgn * (2 * PI * INR j * INR k / INR n))))
            (seq 0 n)).

(** [np.fft.fft(a, n)]: [a] cut or zero-padded to [n] points. *)
Definition np_fft_fft (a : list R) (n : Z) : result (list C) :=
  if (n <? 1)%Z then Raise ValueError
  else Ok (map (dft_coef (-1) a (Z.to_nat n)) (seq 0 (Z.to_nat n))).

(** [np.fft.ifft(a)] of a real array. *)
Definition np_fft_ifft (a : list R) : result (list C) :=
  match a with
  | [] => Raise ValueError
  | _ => Ok (map (fun j => Cscal (/ INR (length a))
                             (dft_coef 1 a (length a) j))
                 (seq 0 (length a)))
  end.

(** [np.fft.rfft(a)]: the first [n/2 + 1] coefficients. *)
Definition np_fft_rfft (a : list R) : result (list C) :=
  match a with
  | [] => Raise ValueError
  | _ => Ok (map (dft_coef (-1) a (length a)) (seq 0 (length a / 2 + 1)))
  end.

Close Scope R_scope.

(** ** Arrays *)

(** A pixels-by-time array: [m_T] is the length of the time axis (it is part
    of the shape also when there is no row). *)
Record movie : Type := Movie {
  m_T : nat;
  m_rows : list (list R)
}.

Definition wf_movie (Y : movie) : Prop :=
  Forall (fun r => length r = m_T Y) (m_rows Y).

(** [Y.shape[0]]. *)
Definition n_pixels (Y : movie) : Z := Z.of_nat (length (m_rows Y)).

(** What [get_noise_fft] accepts: one trace or a movie. *)
Inductive ndarray : Type :=
| Arr1 (a : list R)
| Arr2 (Y : movie).

(** What [np.squeeze] makes of one row of a movie: a row of length one
    collapses to a zero-dimensional array. *)
Inductive trace : Type :=
| Scalar (x : R)
| Trace (a : list R).

Definition np_squeeze (a : list R) : trace :=
  match a with
  | [x] => Scalar x
  | _ => Trace a
  end.

(** [np.arange(start, stop, step)] on doubles, in exact arithmetic:
    [ceil((stop - start) / step)] values [start + k * step]. *)
Definition np_arange (start stop step : Q) : list Q :=
  map (fun k => start + inject_Z (Z.of_nat k) * step)%Q
      (seq 0 (Z.to_nat (Qceiling ((stop - start) / step)))).

(** The positions at which a mask is true ([nonzero]). *)
Definition nonzero (ind : list bool) : list nat :=
  filter (fun k => nth k ind false) (seq 0 (length ind)).

(** [a[..., ind]] for a boolean mask, as the NumPy releases the module was
    written for evaluate it: the mask is turned into the positions at which it
    is true, and those are looked up; a mask longer than the axis is accepted
    as long as it is false beyond the end, and is an [IndexError] otherwise. *)
Definition bool_index {A : Type} (a : list A) (ind : list bool)
  : result (list A) :=
  mapM (fun k => match nth_error a k with
                 | Some x => Ok x
                 | None => Raise IndexError
                 end) (nonzero ind).

(** ** The names bound in the module

    The module imports [numpy as np], [griddata], [tempfile], [os],
    [Parallel], [delayed], [shutil] and, inside [estimate_time_constant],
    [toeplitz].  Its functions also call [fft], [ifft] and [rfft] by their
    bare names; a bare name is looked up among the module's globals when the
    call is evaluated. *)
Record namespace : Type := Namespace {
  g_fft : option (list R -> Z -> result (list C));
  g_ifft : option (list R -> result (list C));
  g_rfft : option (list R -> result (list C))
}.

(** The globals as the source binds them: none of the three names. *)
Definition module_globals : namespace :=
  {| g_fft := None; g_ifft := None; g_rfft := None |}.

(** The globals the module would have after
    [from numpy.fft import fft, ifft, rfft]. *)
Definition numpy_fft_globals : namespace :=
  {| g_fft := Some np_fft_fft;
     g_ifft := Some np_fft_ifft;
     g_rfft := Some np_fft_rfft |}.

Definition lookup {F : Type} (name : string) (o : option F) : result F :=
  match o with
  | Some f => Ok f
  | None => Raise (NameError name)
  end.

(** ** [mean_psd] *)

Open Scope string_scope.

(** The reduction of one row (the last axis). *)
Definition mean_psd_row (y : list R) (method : string) : fval :=
  if String.eqb method "mean" then
    np_sqrt (np_mean (map (fun v => Fin (v / 2)%R) y))
  else if String.eqb method "median" then
    np_sqrt (np_median (map (fun v => (v / 2)%R) y))
  else
    let mp := map (fun v => np_log (v / 2)%R) y in
    let mp := np_mean mp in
    let mp := np_exp mp in
    np_sqrt mp.

Definition mean_psd (y : list (list R)) (method : string) : list fval :=
  map (fun row => mean_psd_row row method) y.

(** ** [get_noise_fft] *)

(** The power spectral density of one row: [(1./T) * abs(xdft) ** 2], with
    every bin but the first doubled. *)
Definition psd_scale (T : nat) (xdft : list C) : list R :=
  let psdx := map (fun z => (1 / INR T * (Cabs z) ^ 2)%R) xdft in
  match psdx with
  | [] => []
  | x0 :: rest => x0 :: map (fun v => (v * 2)%R) rest
  end.

(** [ff = np.arange(0, 0.5 + 1./T, 1./T)]. *)
Definition freq_grid (T : nat) : list Q :=
  np_arange 0 ((1 # 2) + 1 / inject_Z (Z.of_nat T))
            (1 / inject_Z (Z.of_nat T)).

(** [ind = np.logical_and(ff > noise_range[0], ff <= noise_range[1])]. *)
Definition band_mask (T : nat) (noise_range : Q * Q) : list bool :=
  map (fun f => negb (Qle_bool f (fst noise_range))
                && Qle_bool f (snd noise_range))
      (freq_grid T).

Definition default_noise_range : Q * Q := (1 # 4, 1 # 2).
Definition default_noise_method : string := "logmexp".

Definition shape_last (Y : ndarray) : nat :=
  match Y with
  | Arr1 a => length a
  | Arr2 Y => m_T Y
  end.

Definition get_noise_fft (g : namespace) (Y : ndarray) (noise_range : Q * Q)
  (noise_method : string) : result (list fval) :=
  let T := shape_last Y in
  (* 1./T *)
  if Nat.eqb T 0 then Raise ZeroDivisionError else
  let ind := band_mask T noise_range in
  match Y with
  | Arr2 Y =>
    xdft <- mapM np_fft_rfft (m_rows Y) ;;
    let psdx := map (psd_scale T) xdft in
    sel <- mapM (fun row => bool_index row ind) psdx ;;
    Ok (mean_psd sel noise_method)
  | Arr1 a =>
    rfft <- lookup "rfft" (g_rfft g) ;;
    _ <- rfft a ;;
    (* np.fliplr of a one-dimensional array *)
    Raise ValueError
  end.

Close Scope string_scope.

(** ** [fft_psd_parallel] and [get_noise_fft_parallel] *)

(** The keyword arguments forwarded to [get_noise_fft]; an absent one takes
    that function's default. *)
Record kwargs : Type := Kwargs {
  kw_noise_range : option (Q * Q);
  kw_noise_method : option string
}.

Definition no_kwargs : kwargs :=
  {| kw_noise_range := None; kw_noise_method := None |}.

Definition kw_range (kw : kwargs) : Q * Q :=
  match kw_noise_range kw with
  | Some r => r
  | None => default_noise_range
  end.

Definition kw_method (kw : kwargs) : string :=
  match kw_noise_method kw with
  | Some m => m
  | None => default_noise_method
  end.

(** The shared buffer [sn_s], with a ghost log of the positions written, in
    the order of the writes. *)
Record shared : Type := Shared {
  sn_s : list fval;
  written : list nat
}.

(** [np.memmap(..., shape=n, mode='w+')]: a fresh file, read as zeros. *)
Definition memmap_new (n : Z) : shared :=
  {| sn_s := repeat (Fin 0) (Z.to_nat n); written := [] |}.

Definition write1 (st : shared) (kv : nat * fval) : shared :=
  {| sn_s := list_set (sn_s st) (fst kv) (snd kv);
     written := written st ++ [fst kv] |}.

(** [sn_s[idxs] = res]: the indices are checked, the shapes must agree, then
    the values are stored. *)
Definition set_idxs (st : shared) (idxs : list Z) (res : list fval)
  : result shared :=
  ks <- mapM (norm_index (length (sn_s st))) idxs ;;
  if Nat.eqb (length res) (length ks)
  then Ok (fold_left write1 (combine ks res) st)
  else Raise ValueError.

(** [Y[idxs]] for a list of row indices. *)
Definition take_rows (Y : movie) (idxs : list Z) : result movie :=
  rows <- take_idxs (m_rows Y) idxs ;;
  Ok {| m_T := m_T Y; m_rows := rows |}.

Definition fft_psd_parallel (g : namespace) (Y : movie) (st : shared)
  (i num_pixels : Z) (kw : kwargs) : result shared :=
  let idxs := py_range1 i (i + num_pixels) in
  Yi <- take_rows Y idxs ;;
  res <- get_noise_fft g (Arr2 Yi) (kw_range kw) (kw_method kw) ;;
  set_idxs st idxs res.

Inductive backend : Type := threading | multiprocessing.

(** The blocks handed to [Parallel] may run in any order; [schedule] fixes
    the order in which their writes take effect.  The remaining pixels are
    processed after all of them, in the calling thread.  (The message printed
    before that pass is not modelled.) *)
Definition get_noise_fft_parallel_sched (schedule : list Z -> list Z)
  (g : namespace) (Y : movie) (n_processes n_pixels_per_process : Z)
  (bk : backend) (kw : kwargs) : result shared :=
  let st := memmap_new (n_pixels Y) in
  pixel_groups <- py_range 0 (n_pixels Y - n_pixels_per_process + 1)
                           n_pixels_per_process ;;
  (* joblib refuses n_jobs = 0 *)
  _ <- (if (n_processes =? 0)%Z then Raise ValueError else Ok tt) ;;
  st <- foldM (fun i st => fft_psd_parallel g Y st i n_pixels_per_process kw)
              (schedule pixel_groups) st ;;
  pixels_remaining <- py_mod (n_pixels Y) n_pixels_per_process ;;
  if (0 <? pixels_remaining)%Z then
    fft_psd_parallel g Y st (n_pixels Y - pixels_remaining) pixels_remaining
                     no_kwargs
  else Ok st.

(** The blocks in the order of [pixel_groups]. *)
Definition get_noise_fft_parallel : namespace -> movie -> Z -> Z -> backend ->
  kwargs -> result shared :=
  get_noise_fft_parallel_sched (fun l => l).

(** The index blocks that a call dispatches: one per element of
    [pixel_groups], then the remainder block. *)
Definition dispatched_blocks (N G : Z) : result (list (list Z)) :=
  pixel_groups <- py_range 0 (N - G + 1) G ;;
  pixels_remaining <- py_mod N G ;;
  Ok (map (fun i => py_range1 i (i + G)) pixel_groups ++
      (if (0 <? pixels_remaining)%Z
       then [py_range1 (N - pixels_remaining) (N - pixels_remaining + pixels_remaining)]
       else [])).

(** ** [nextpow2] *)

Equations? nextpow2_loop (avalue : Z) (exponent : nat) : nat
  by wf (Z.to_nat (avalue - 2 ^ Z.of_nat exponent)) lt :=
  nextpow2_loop avalue exponent with Z_gt_dec avalue (2 ^ Z.of_nat exponent) := {
    | left _ => nextpow2_loop avalue (S exponent)
    | right _ => exponent
  }.
Proof.
  change (Z.pow_pos 2 (Pos.of_succ_nat exponent))
    with (2 ^ Z.of_nat (S exponent))%Z.
  rewrite Nat2Z.inj_succ, Z.pow_succ_r by lia.
  assert (0 < 2 ^ Z.of_nat exponent)%Z by (apply Z.pow_pos_nonneg; lia).
  lia.
Qed.

Definition nextpow2 (value : Z) : Z :=
  Z.of_nat (nextpow2_loop (Z.abs value) 0).

(** ** [axcov] *)

Definition Rmean (a : list R) : R :=
  (fold_right Rplus 0 a / INR (length a))%R.

(** [data - np.mean(data)]. *)
Definition demean (a : list R) : list R :=
  map (fun x => (x - Rmean a)%R) a.

Open Scope string_scope.

Definition axcov (g : namespace) (data : trace) (maxlag : Z)
  : result (list fval) :=
  match data with
  | Scalar _ =>
    (* len() of a zero-dimensional array *)
    Raise TypeError
  | Trace a =>
    let data := demean a in
    let T := length data in
    let bins := Z.of_nat (length data) in
    fft <- lookup "fft" (g_fft g) ;;
    xcov <- fft data (2 ^ nextpow2 (2 * bins - 1))%Z ;;
    ifft <- lookup "ifft" (g_ifft g) ;;
    xcov <- ifft (map (fun z => (Cabs z) ^ 2)%R xcov) ;;
    let size := Z.of_nat (length xcov) in
    neg <- take_idxs xcov (py_range1 (size - maxlag) size) ;;
    pos <- take_idxs xcov (py_range1 0 (maxlag + 1)) ;;
    let xcov := (neg ++ pos)%list in
    Ok (map (fun z => fdiv_R (Cre z) (INR T)) xcov)
  end.

(** ** [estimate_time_constant] *)

(** A two-dimensional array of doubles, of shape
    [(length mat_rows, mat_cols)]. *)
Record matrix : Type := Matrix {
  mat_cols : nat;
  mat_rows : list (list fval)
}.

Definition np_zeros1 (n : Z) : result (list fval) :=
  if (n <? 0)%Z then Raise ValueError else Ok (repeat (Fin 0) (Z.to_nat n)).

Definition np_zeros2 (r c : Z) : result matrix :=
  if ((r <? 0) || (c <? 0))%Z then Raise ValueError
  else Ok {| mat_cols := Z.to_nat c;
             mat_rows := repeat (repeat (Fin 0) (Z.to_nat c)) (Z.to_nat r) |}.

(** [np.eye(r, c)]. *)
Definition np_eye (r c : Z) : result matrix :=
  if ((r <? 0) || (c <? 0))%Z then Raise ValueError
  else Ok {| mat_cols := Z.to_nat c;
             mat_rows := map (fun a => map (fun b => if Nat.eqb a b
                                                     then Fin 1 else Fin 0)
                                           (seq 0 (Z.to_nat c)))
                             (seq 0 (Z.to_nat r)) |}.

(** [scipy.linalg.toeplitz(c, r)]: first column [c], first row [r] (whose
    first entry is ignored). *)
Definition toeplitz (c r : list fval) : matrix :=
  {| mat_cols := length r;
     mat_rows := map (fun a => map (fun b => if Nat.leb b a
                                             then nth (a - b) c NaN
                                             else nth (b - a) r NaN)
                                   (seq 0 (length r)))
                     (seq 0 (length c)) |}.

(** [a[k:]]: a slice never raises; a negative start counts from the end. *)
Definition slice_from {A : Type} (a : list A) (k : Z) : list A :=
  if (k <? 0)%Z then skipn (Z.to_nat (Z.of_nat (length a) + k)) a
  else skipn (Z.to_nat k) a.

(** [dst[k] = src] for a row or a vector of the same length; a single value
    is broadcast. *)
Definition assign_at {A : Type} (len : A -> nat) (bcast : A -> nat -> A)
  (dst : list A) (k : Z) (n : nat) (src : A) : result (list A) :=
  i <- norm_index (length dst) k ;;
  if Nat.eqb (len src) n then Ok (list_set dst i src)
  else if Nat.eqb (len src) 1 then Ok (list_set dst i (bcast src n))
  else Raise ValueError.

Definition bcast_row (r : list fval) (n : nat) : list fval :=
  repeat (nth 0 r NaN) n.

(** [M[k, :] = row]. *)
Definition set_row (M : matrix) (k : Z) (row : list fval) : result matrix :=
  rows <- assign_at (@length fval) bcast_row (mat_rows M) k (mat_cols M) row ;;
  Ok {| mat_cols := mat_cols M; mat_rows := rows |}.

(** [M[ks, :] = B] for a list of row indices and a block of as many rows. *)
Definition set_rows (M : matrix) (ks : list Z) (B : matrix) : result matrix :=
  if Nat.eqb (length (mat_rows B)) (length ks)
     && Nat.eqb (mat_cols B) (mat_cols M)
  then foldM (fun kr M => set_row M (fst kr) (snd kr))
             (combine ks (mat_rows B)) M
  else Raise ValueError.

(** [v[ks] = w] for a list of indices and as many values. *)
Definition set_vals (v : list fval) (ks : list Z) (w : list fval)
  : result (list fval) :=
  if Nat.eqb (length w) (length ks)
  then foldM (fun kx v => i <- norm_index (length v) (fst kx) ;;
                          Ok (list_set v i (snd kx)))
             (combine ks w) v
  else Raise ValueError.

(** [M - s * E], entry by entry. *)
Definition mat_sub_scaled (M : matrix) (s : fval) (E : matrix) : result matrix :=
  if Nat.eqb (length (mat_rows M)) (length (mat_rows E))
     && Nat.eqb (mat_cols M) (mat_cols E)
  then Ok {| mat_cols := mat_cols M;
             mat_rows := map (fun re => map (fun xe => fsub (fst xe)
                                                         (fmul s (snd xe)))
                                            (combine (fst re) (snd re)))
                             (combine (mat_rows M) (mat_rows E)) |}
  else Raise ValueError.

(** [np.dot(M, v)]. *)
Definition np_dot (M : matrix) (v : list fval) : result (list fval) :=
  if Nat.eqb (mat_cols M) (length v)
  then Ok (map (fun row => fsum (map (fun xy => fmul (fst xy) (snd xy))
                                     (combine row v)))
               (mat_rows M))
  else Raise ValueError.

(** [M[:, ks]]. *)
Definition take_cols (M : matrix) (ks : list Z) : result matrix :=
  rows <- mapM (fun row => take_idxs row ks) (mat_rows M) ;;
  Ok {| mat_cols := length ks; mat_rows := rows |}.

Section TimeConstant.

(** [np.linalg.pinv], supplied by NumPy. *)
Variable pinv : matrix -> result matrix.

Definition estimate_time_constant (g : namespace) (Y : movie)
  (sn : list fval) (p : option Z) (lags : Z) (include_noise : bool)
  (pixels : option (list Z)) : result (list fval) :=
  match p with
  | None => Raise (Exception "You need to define p")
  | Some p =>
    pixels <- match pixels with
              | Some px => Ok px
              | None =>
                n <- py_floordiv (n_pixels Y * Z.of_nat (m_T Y))
                                 (Z.of_nat (m_T Y)) ;;
                Ok (py_range1 0 n)
              end ;;
    let npx := Z.of_nat (length pixels) in
    let lags := (lags + p)%Z in
    XC <- np_zeros2 npx (2 * lags + 1) ;;
    XC <- foldM (fun j XC =>
                   pj <- get_item pixels j ;;
                   row <- get_item (m_rows Y) pj ;;
                   ac <- axcov g (np_squeeze row) lags ;;
                   set_row XC j ac)
                (py_range1 0 npx) XC ;;
    gv <- np_zeros1 (npx * lags) ;;
    XC <- (if include_noise then Ok XC
           else ks <- py_range (lags - 1) (-1) (-1) ;; take_cols XC ks) ;;
    let lags := if include_noise then lags else (lags - p)%Z in
    A <- np_zeros2 (npx * lags) p ;;
    Agv <- foldM (fun i Agv =>
                    let A := fst Agv in
                    let gv := snd Agv in
                    XCi <- get_item (mat_rows XC) i ;;
                    let ks := map (fun k => i * lags + k)%Z
                                  (py_range1 0 lags) in
                    if include_noise then
                      c <- take_idxs XCi (map (fun k => lags + k)%Z
                                              (py_range1 0 lags)) ;;
                      r <- take_idxs XCi (map (fun k => lags + k)%Z
                                              (py_range1 0 p)) ;;
                      sni <- get_item sn i ;;
                      E <- np_eye lags p ;;
                      B <- mat_sub_scaled (toeplitz c r) (fmul sni sni) E ;;
                      A <- set_rows A ks B ;;
                      gv <- set_vals gv ks (slice_from XCi (lags + 1)) ;;
                      Ok (A, gv)
                    else
                      c <- take_idxs XCi (py_range1 (p - 1) (p + lags - 1)) ;;
                      ks' <- py_range (p - 1) (-1) (-1) ;;
                      r <- take_idxs XCi ks' ;;
                      A <- set_rows A ks (toeplitz c r) ;;
                      Ok (A, gv))
                 (py_range1 0 npx) (A, gv) ;;
    let A := fst Agv in
    let gv := if include_noise then snd Agv
              else concat (map (fun row => slice_from row p) (mat_rows XC)) in
    Ainv <- pinv A ;;
    np_dot Ainv gv
  end.

End TimeConstant.

Close Scope string_scope.

(** ** Vocabulary of the statements *)

(** The one-sided transform and the power spectral density of one row of
    length [T], as [get_noise_fft] computes them. *)
Definition rfft_row (T : nat) (row : list R) : list C :=
  map (dft_coef (-1) row T) (seq 0 (T / 2 + 1)).

Definition psd_row (T : nat) (row : list R) : list R :=
  psd_scale T (rfft_row T row).

(** The positions of the frequency grid that the mask keeps. *)
Definition selected_bins (T : nat) (noise_range : Q * Q) : list nat :=
  nonzero (band_mask T noise_range).

(** The power values handed to [mean_psd] for one row. *)
Definition band_values (T : nat) (noise_range : Q * Q) (row : list R)
  : list R :=
  map (fun k => nth k (psd_row T row) 0%R) (selected_bins T noise_range).

(** The noise level of one row. *)
Definition row_noise (T : nat) (noise_range : Q * Q) (method : string)
  (row : list R) : fval :=
  mean_psd_row (band_values T noise_range row) method.

(** The reduction that [mean_psd] names 'logmexp'. *)
Definition logmexp (y : list R) : fval :=
  np_sqrt (np_exp (np_mean (map (fun v => np_log (v / 2)%R) y))).

(** The frequency of bin [k] of a trace of length [T], as a fraction of the
    sampling rate. *)
Definition bin_freq (T k : nat) : Q :=
  inject_Z (Z.of_nat k) / inject_Z (Z.of_nat T).

(** Membership of a frequency in the band [(lo, hi]]. *)
Definition in_band (noise_range : Q * Q) (f : Q) : bool :=
  negb (Qle_bool f (fst noise_range)) && Qle_bool f (snd noise_range).

(** The sum of [f 0], ..., [f (n - 1)]. *)
Definition Rsum (f : nat -> R) (n : nat) : R :=
  fold_right Rplus 0%R (map f (seq 0 n)).

(** A movie whose traces are constant over time. *)
Definition constant_movie (Y : movie) : Prop :=
  Forall (fun row => exists c : R, row = repeat c (m_T Y)) (m_rows Y).

(** Inputs used in the examples. *)
Definition movie_1x4 : movie :=
  {| m_T := 4; m_rows := [[1; 2; 3; 4]%R] |}.

Definition movie_1x1 : movie :=
  {| m_T := 1; m_rows := [[5]%R] |}.

Definition movie_const_2x4 : movie :=
  {| m_T := 4; m_rows := [[3; 3; 3; 3]%R; [7; 7; 7; 7]%R] |}.

(** Writing [val k] at each position [k] of a block, in order. *)
Definition write_block (val : nat -> fval) (ks : list nat) (st : shared)
  : shared :=
  fold_left (fun st k => write1 st (k, val k)) ks st.

(** Row [k] of a movie. *)
Definition row_at (Y : movie) (k : nat) : list R := nth k (m_rows Y) [].

(** The noise level of pixel [k] under the given keyword arguments. *)
Definition kw_val (Y : movie) (kw : kwargs) (k : nat) : fval :=
  row_noise (m_T Y) (kw_range kw) (kw_method kw) (row_at Y k).

(** The serial estimator applied with the same keyword arguments. *)
Definition serial_noise (g : namespace) (Y : movie) (kw : kwargs)
  : result (list fval) :=
  get_noise_fft g (Arr2 Y) (kw_range kw) (kw_method kw).

(** Every position written so far holds the value that [v] assigns to it. *)
Definition holds_at (v : nat -> fval) (st : shared) : Prop :=
  Forall (fun i => nth_error (sn_s st) i = Some (v i)) (written st).

(** What the orchestrator leaves at position [i] of a buffer of [N] entries
    of which the last [r] are remaining pixels: the level under the caller's
    keyword arguments in a whole group, under the defaults in the
    remainder. *)
Definition parallel_val (Y : movie) (kw : kwargs) (N r : nat) (i : nat)
  : fval :=
  if (i <? N - r)%nat then kw_val Y kw i else kw_val Y no_kwargs i.

Definition movie_3x4 : movie :=
  {| m_T := 4;
     m_rows := [[1; 0; 1; 0]%R; [1; 0; 1; 0]%R; [1; 0; 1; 0]%R] |}.

(** [noise_range=[0, 0.25], noise_method='mean']. *)
Definition kw_low_mean : kwargs :=
  {| kw_noise_range := Some (0, 1 # 4); kw_noise_method := Some "mean"%string |}.

(** The trace of the spec's autocovariance scenario. *)
Definition trace_16 : list R :=
  [1; 2; 3; 4; 5; 4; 3; 2; 1; 2; 3; 4; 5; 4; 3; 2]%R.

(** A movie of two pixels and sixteen samples. *)
Definition movie_2x16 : movie :=
  {| m_T := 16; m_rows := [trace_16; trace_16] |}.

(** A stand-in of the right shape for NumPy's pseudo-inverse, for the
    examples: the transpose. *)
Definition transpose_as_pinv (M : matrix) : result matrix :=
  Ok {| mat_cols := length (mat_rows M);
        mat_rows := map (fun c => map (fun row => nth c row NaN) (mat_rows M))
                        (seq 0 (mat_cols M)) |}.

(** The number of points of the transform that [axcov] takes of a trace of
    [T] samples. *)
Definition fft_size (T : nat) : nat :=
  Z.to_nat (2 ^ nextpow2 (2 * Z.of_nat T - 1)).

(** The real part of entry [j] of [ifft(np.square(np.abs(fft(d, n))))]. *)
Definition xcov_re (d : list R) (n j : nat) : R :=
  Cre (Cscal (/ INR n)
         (dft_coef 1 (map (fun z => (Cabs z ^ 2)%R)
                          (map (dft_coef (-1) d n) (seq 0 n))) n j)).

(** The sample variance: the mean squared deviation from the mean. *)
Definition sample_variance (a : list R) : R :=
  (Rsum (fun j => (nth j a 0 - Rmean a) ^ 2) (length a) / INR (length a))%R.

(** ** [interpolate_missing_data]

    The movie as it arrives: a sample is a real number or is missing (NumPy's
    not-a-number). *)
Inductive sample : Type :=
| Known (r : R)
| Missing.

Record raw_movie : Type := RawMovie {
  r_T : nat;
  r_rows : list (list sample)
}.

(** [np.isnan]. *)
Definition np_isnan (s : sample) : bool :=
  match s with
  | Missing => true
  | Known _ => false
  end.

(** [np.any(np.isnan(Y))]. *)
Definition any_nan (Y : raw_movie) : bool :=
  existsb (existsb np_isnan) (r_rows Y).

(** The loop that follows the [raise] in the source can never run and is not
    modelled; [coor] is the list of interpolated coordinates, one entry per
    row: the row index and the positions filled in. *)
Definition interpolate_missing_data (Y : raw_movie)
  : result (raw_movie * list (nat * list nat)) :=
  let coor := [] in
  if any_nan Y
  then Raise (Exception
                "The algorithm has not been tested with missing values (NaNs)")
  else Ok (Y, coor).

(** The numeric content of a movie without missing samples. *)
Definition sample_value (s : sample) : R :=
  match s with
  | Known r => r
  | Missing => 0%R
  end.

Definition as_movie (Y : raw_movie) : movie :=
  {| m_T := r_T Y; m_rows := map (map sample_value) (r_rows Y) |}.

(** ** [find_unsaturated_pixels] *)

(** [np.ceil] of a real number, as an integer. *)
Definition Rceil (x : R) : Z := (1 - up (- x))%Z.

(** [np.max(Y)]: the largest entry; an empty array raises. *)
Definition np_max (Y : movie) : result R :=
  match concat (m_rows Y) with
  | [] => Raise ValueError
  | x :: xs => Ok (fold_left Rmax xs x)
  end.

(** [np.power(2, np.ceil(np.log2(mx))) - 1]: the logarithm of zero is minus
    infinity, whose power is zero; the logarithm of a negative number is
    not-a-number.  The exponent is an integer, so the power is written with
    [powerRZ]. *)
Definition default_saturation (mx : R) : fval :=
  if Rlt_dec 0 mx then Fin (powerRZ 2 (Rceil (ln mx / ln 2)) - 1)%R
  else if Rlt_dec mx 0 then NaN
  else Fin (0 - 1)%R.

(** [y >= c] for a finite sample and a level that may be special. *)
Definition sample_ge (y : R) (c : fval) : bool :=
  match c with
  | Fin x => if Rle_dec x y then true else false
  | NInf => true
  | PInf | NaN => false
  end.

(** [np.mean] of a row of booleans: the fraction that are true. *)
Definition fraction_true (l : list bool) : fval :=
  np_mean (map (fun b : bool => if b then Fin 1%R else Fin 0%R) l).

(** [a > t] for a double that may be special and a finite bound. *)
Definition fval_gt (a : fval) (t : R) : bool :=
  match a with
  | Fin x => if Rlt_dec t x then true else false
  | PInf => true
  | NInf | NaN => false
  end.

(** [np.where(pix)] for a one-dimensional mask: the positions that are
    true. *)
Definition np_where (pix : list bool) : list nat := nonzero pix.

Definition find_unsaturated_pixels (Y : movie) (saturationValue : option R)
  (saturationThreshold saturationTime : R) : result (list nat) :=
  saturationValue <-
    match saturationValue with
    | None => mx <- np_max Y ;; Ok (default_saturation mx)
    | Some v => Ok (Fin v)
    end ;;
  let level := fmul (Fin saturationThreshold) saturationValue in
  let Ysat := map (map (fun y => sample_ge y level)) (m_rows Y) in
  let pix := map (fun row => fval_gt (fraction_true row) saturationTime)
                 Ysat in
  let normalPixels := np_where pix in
  Ok normalPixels.

(** ** [preprocess_data] *)

Definition preprocess_data (pinv : matrix -> result matrix) (gl : namespace)
  (Y : raw_movie) (sn : option (list fval))
  (n_processes n_pixels_per_process : Z) (noise_range : Q * Q)
  (noise_method : string) (compute_g : bool) (p : option Z)
  (g : option (list fval)) (lags : Z) (include_noise : bool)
  (pixels : option (list Z))
  : result (raw_movie * list fval * option (list fval)) :=
  Ycoor <- interpolate_missing_data Y ;;
  let Y := fst Ycoor in
  sn <- match sn with
        | Some sn => Ok sn
        | None =>
          st <- get_noise_fft_parallel gl (as_movie Y) n_processes
                  n_pixels_per_process threading
                  {| kw_noise_range := Some noise_range;
                     kw_noise_method := Some noise_method |} ;;
          Ok (sn_s st)
        end ;;
  g <- (if compute_g
        then gv <- estimate_time_constant pinv gl (as_movie Y) sn p lags
                     include_noise pixels ;;
             Ok (Some gv)
        else Ok None) ;;
  Ok (Y, sn, g).

(** ** Further vocabulary *)

(** The number of samples of a row at or above a level. *)
Definition count_ge (row : list R) (level : fval) : nat :=
  length (filter (fun y => sample_ge y level) row).

(** The lagged product sum of a de-meaned trace: the sum over [j] of
    [d_j * d_(j+k)], with zero read beyond the end. *)
Definition lag_sum (d : list R) (k : nat) : R :=
  Rsum (fun j => (nth j d 0 * nth (j + k) d 0)%R) (length d).

(** Inputs used in the examples of the further properties. *)
Definition raw_2x2_missing : raw_movie :=
  {| r_T := 2; r_rows := [[Known 1%R; Known 2%R]; [Missing; Known 4%R]] |}.

Definition raw_3x4 : raw_movie :=
  {| r_T := 4;
     r_rows := [[Known 1%R; Known 0%R; Known 1%R; Known 0%R];
                [Known 1%R; Known 0%R; Known 1%R; Known 0%R];
                [Known 1%R; Known 0%R; Known 1%R; Known 0%R]] |}.

(** ** Results: the error monad *)

Lemma mapM_ok_map {A B : Type} (f : A -> result B) (h : A -> B) (xs : list A) :
  (forall x, In x xs -> f x = Ok (h x)) ->
  mapM f xs = Ok (map h xs).
Proof.
  induction xs as [| x xs IH]; intros Hf; simpl.
  - reflexivity.
  - rewrite (Hf x) by (left; reflexivity). simpl.
    rewrite IH by (intros y Hy; apply Hf; right; exact Hy).
    reflexivity.
Qed.

Lemma mapM_map_ok {A A' B : Type} (f : A' -> result B) (k : A -> A')
  (h : A -> B) (xs : list A) :
  (forall x, In x xs -> f (k x) = Ok (h x)) ->
  mapM f (map k xs) = Ok (map h xs).
Proof.
  induction xs as [| x xs IH]; intros Hf; simpl.
  - reflexivity.
  - rewrite (Hf x) by (left; reflexivity). simpl.
    rewrite IH by (intros y Hy; apply Hf; right; exact Hy).
    reflexivity.
Qed.

Lemma raises_not_ok {A : Type} (m : result A) a :
  m = Ok a -> ~ raises m.
Proof. intros -> [e He]. discriminate. Qed.

(** ** [mean_psd] *)

Lemma mean_psd_row_empty (method : string) :
  mean_psd_row [] method = NaN.
Proof.
  unfold mean_psd_row.
  destruct (String.eqb method "mean"); [reflexivity |].
  destruct (String.eqb method "median"); reflexivity.
Qed.

Lemma mean_psd_row_other (y : list R) (method : string) :
  method <> "mean"%string -> method <> "median"%string ->
  mean_psd_row y method = logmexp y.
Proof.
  intros H1 H2. unfold mean_psd_row, logmexp.
  apply String.eqb_neq in H1. apply String.eqb_neq in H2.
  rewrite H1, H2. reflexivity.
Qed.

(** C10. For every array [y] and every method name other than 'mean' and
    'median', [mean_psd] returns, for each row, the 'logmexp' reduction
    sqrt(exp(mean(log(y/2)))); it has no error result, so an unknown name is
    never rejected. *)
Theorem mean_psd_unknown_method_is_logmexp (y : list (list R)) (method : string) :
  method <> "mean"%string -> method <> "median"%string ->
  mean_psd y method = map logmexp y /\
  mean_psd y method = mean_psd y "logmexp".
Proof.
  intros H1 H2. unfold mean_psd. split.
  - apply map_ext. intros row. apply mean_psd_row_other; assumption.
  - apply map_ext. intros row.
    rewrite mean_psd_row_other by assumption.
    rewrite mean_psd_row_other by discriminate. reflexivity.
Qed.

Lemma mean_psd_unknown_method_witness :
  "medain"%string <> "mean"%string /\ "medain"%string <> "median"%string /\
  mean_psd [[2; 8]%R] "medain" = map logmexp [[2; 8]%R].
Proof.
  split; [discriminate |]. split; [discriminate |].
  apply (mean_psd_unknown_method_is_logmexp [[2; 8]%R] "medain");
    discriminate.
Defined.

(** ** The frequency grid and the band mask *)

Lemma nth_map_lt {A B : Type} (f : A -> B) l k d d' :
  (k < length l)%nat -> nth k (map f l) d = f (nth k l d').
Proof.
  revert k. induction l as [| x l IH]; intros k Hk; simpl in *; [lia |].
  destruct k; [reflexivity |]. apply IH. lia.
Qed.

Lemma bin_freq_frac T k : T <> 0%nat ->
  bin_freq T k == Z.of_nat k # Pos.of_nat T.
Proof.
  intros HT. unfold bin_freq.
  assert (E : inject_Z (Z.of_nat T) == Z.pos (Pos.of_nat T) # 1).
  { unfold inject_Z. destruct T; [congruence |].
    rewrite <- Pos.of_nat_succ. simpl. reflexivity. }
  rewrite E. unfold Qdiv, Qinv, Qmult, Qeq, inject_Z. simpl. lia.
Qed.

Lemma freq_grid_length T : T <> 0%nat ->
  length (freq_grid T) = ((T + 1) / 2 + 1)%nat.
Proof.
  intros HT. unfold freq_grid, np_arange.
  rewrite length_map, length_seq.
  assert (E : ((1 # 2) + 1 / inject_Z (Z.of_nat T) - 0)
              / (1 / inject_Z (Z.of_nat T))
              == (Z.of_nat T + 2) # 2).
  { assert (Hn : ~ inject_Z (Z.of_nat T) == 0).
    { unfold Qeq, inject_Z. simpl. lia. }
    setoid_replace ((Z.of_nat T + 2) # 2) with (inject_Z (Z.of_nat T) / 2 + 1).
    - field. exact Hn.
    - unfold Qeq, Qdiv, Qmult, Qplus, Qinv, inject_Z. simpl. lia. }
  rewrite (Qceiling_comp _ _ E).
  unfold Qceiling, Qfloor, Qopp. simpl Qnum. simpl Qden.
  apply Nat2Z.inj. rewrite Z2Nat.id.
  - rewrite Nat2Z.inj_add, Nat2Z.inj_div, Nat2Z.inj_add. simpl Z.of_nat.
    Z.div_mod_to_equations. lia.
  - Z.div_mod_to_equations. lia.
Qed.

Lemma freq_grid_nth T k : T <> 0%nat -> (k < length (freq_grid T))%nat ->
  nth k (freq_grid T) 0 == bin_freq T k.
Proof.
  intros HT Hk. unfold freq_grid, np_arange in *.
  rewrite length_map, length_seq in Hk.
  rewrite nth_map_lt with (d' := 0%nat) by (rewrite length_seq; exact Hk).
  rewrite seq_nth by exact Hk. simpl Nat.add.
  unfold bin_freq. field.
  unfold Qeq, inject_Z. simpl. lia.
Qed.

Lemma in_band_comp r f f' : f == f' -> in_band r f = in_band r f'.
Proof.
  intros E. unfold in_band.
  assert (H : forall b, Qle_bool f b = Qle_bool f' b).
  { intros b.
    destruct (Qle_bool f b) eqn:H1, (Qle_bool f' b) eqn:H2; try reflexivity.
    - apply Qle_bool_iff in H1. rewrite E in H1.
      apply Qle_bool_iff in H1. congruence.
    - apply Qle_bool_iff in H2. rewrite <- E in H2.
      apply Qle_bool_iff in H2. congruence. }
  rewrite !H. reflexivity.
Qed.

Lemma in_band_iff r f :
  in_band r f = true <-> fst r < f /\ f <= snd r.
Proof.
  unfold in_band. rewrite andb_true_iff, negb_true_iff, Qle_bool_iff.
  split; intros [H1 H2]; split; try assumption.
  - apply Qnot_le_lt. intros H. apply Qle_bool_iff in H. congruence.
  - destruct (Qle_bool f (fst r)) eqn:E; [| reflexivity].
    apply Qle_bool_iff in E. exfalso. apply (Qlt_not_le _ _ H1 E).
Qed.

Lemma selected_bins_filter T r : T <> 0%nat ->
  selected_bins T r =
  filter (fun k => in_band r (bin_freq T k)) (seq 0 ((T + 1) / 2 + 1)).
Proof.
  intros HT. unfold selected_bins, nonzero, band_mask.
  rewrite length_map, freq_grid_length by exact HT.
  apply filter_ext_in. intros k Hk. apply in_seq in Hk.
  rewrite nth_map_lt with (d' := 0)
    by (rewrite freq_grid_length by exact HT; lia).
  change (in_band r (nth k (freq_grid T) 0) = in_band r (bin_freq T k)).
  apply in_band_comp. apply freq_grid_nth; [exact HT |].
  rewrite freq_grid_length by exact HT. lia.
Qed.

Lemma selected_bins_iff T r k : T <> 0%nat ->
  In k (selected_bins T r) <->
  (k <= (T + 1) / 2)%nat /\ fst r < bin_freq T k /\ bin_freq T k <= snd r.
Proof.
  intros HT. rewrite selected_bins_filter by exact HT.
  rewrite filter_In, in_seq, in_band_iff. split.
  - intros [Hk Hb]. split; [lia | exact Hb].
  - intros [Hk Hb]. split; [lia | exact Hb].
Qed.

(** With an upper bound of at most 0.5 every kept position is a bin of the
    one-sided transform. *)
Lemma selected_bins_in_range T r k : T <> 0%nat -> snd r <= 1 # 2 ->
  In k (selected_bins T r) -> (k <= T / 2)%nat.
Proof.
  intros HT Hhi Hk. apply selected_bins_iff in Hk; [| exact HT].
  destruct Hk as (_ & _ & Hle).
  assert (H : bin_freq T k <= 1 # 2) by (eapply Qle_trans; eassumption).
  rewrite bin_freq_frac in H by exact HT.
  unfold Qle in H. simpl in H.
  assert (HP : Z.pos (Pos.of_nat T) = Z.of_nat T).
  { destruct T; [congruence |]. rewrite <- Pos.of_nat_succ. lia. }
  rewrite HP in H.
  apply Nat.div_le_lower_bound; lia.
Qed.

(** An empty or inverted band keeps nothing. *)
Lemma selected_bins_inverted T r : T <> 0%nat -> snd r <= fst r ->
  selected_bins T r = [].
Proof.
  intros HT Hinv.
  destruct (selected_bins T r) as [| k l] eqn:E; [reflexivity |].
  assert (Hk : In k (selected_bins T r)) by (rewrite E; left; reflexivity).
  apply selected_bins_iff in Hk; [| exact HT].
  destruct Hk as (_ & Hlo & Hhi). exfalso.
  apply (Qlt_irrefl (fst r)).
  eapply Qlt_le_trans; [exact Hlo |]. eapply Qle_trans; eassumption.
Qed.

(** ** [get_noise_fft] on a movie *)

Lemma psd_scale_length T xdft : length (psd_scale T xdft) = length xdft.
Proof.
  unfold psd_scale. destruct xdft as [| z zs]; simpl; [reflexivity |].
  rewrite !length_map. reflexivity.
Qed.

Lemma psd_row_length T row : length (psd_row T row) = (T / 2 + 1)%nat.
Proof.
  unfold psd_row, rfft_row.
  rewrite psd_scale_length, length_map, length_seq. reflexivity.
Qed.

Lemma np_fft_rfft_row T row : length row = T -> T <> 0%nat ->
  np_fft_rfft row = Ok (rfft_row T row).
Proof.
  intros HL HT. unfold np_fft_rfft, rfft_row.
  destruct row as [| x row]; [simpl in HL; congruence |].
  rewrite HL. reflexivity.
Qed.

Lemma bool_index_ok {A : Type} (a : list A) ind d :
  (forall k, In k (nonzero ind) -> (k < length a)%nat) ->
  bool_index a ind = Ok (map (fun k => nth k a d) (nonzero ind)).
Proof.
  intros H. unfold bool_index. apply mapM_ok_map.
  intros k Hk. specialize (H k Hk).
  destruct (nth_error a k) as [x |] eqn:E.
  - rewrite (nth_error_nth _ _ d E). reflexivity.
  - apply nth_error_None in E. lia.
Qed.

(** On a well-formed movie with a band inside the one-sided spectrum,
    [get_noise_fft] returns the noise level of each row. *)
Lemma get_noise_fft_movie g Y r method :
  wf_movie Y -> m_T Y <> 0%nat ->
  (forall k, In k (selected_bins (m_T Y) r) -> (k <= m_T Y / 2)%nat) ->
  get_noise_fft g (Arr2 Y) r method =
  Ok (map (row_noise (m_T Y) r method) (m_rows Y)).
Proof.
  intros Hwf HT Hsel. unfold get_noise_fft. simpl shape_last.
  destruct (Nat.eqb_spec (m_T Y) 0) as [E | _]; [contradiction |].
  rewrite (mapM_ok_map np_fft_rfft (rfft_row (m_T Y))).
  2:{ intros row Hrow. apply np_fft_rfft_row; [| exact HT].
      unfold wf_movie in Hwf. rewrite Forall_forall in Hwf.
      apply Hwf. exact Hrow. }
  simpl bind. rewrite map_map.
  rewrite (mapM_map_ok _ _ (band_values (m_T Y) r)).
  2:{ intros row Hrow.
      unfold band_values, selected_bins.
      change (psd_scale (m_T Y) (rfft_row (m_T Y) row))
        with (psd_row (m_T Y) row).
      apply bool_index_ok. intros k Hk.
      rewrite psd_row_length.
      specialize (Hsel k Hk). lia. }
  simpl bind. unfold mean_psd. rewrite !map_map. reflexivity.
Qed.

(** A band that keeps no bin: every row is reduced over an empty slice. *)
Lemma get_noise_fft_empty_band g Y r method :
  wf_movie Y -> m_T Y <> 0%nat -> selected_bins (m_T Y) r = [] ->
  get_noise_fft g (Arr2 Y) r method = Ok (repeat NaN (length (m_rows Y))).
Proof.
  intros Hwf HT Hsel.
  rewrite get_noise_fft_movie; try assumption.
  - f_equal. unfold row_noise, band_values. rewrite Hsel. simpl map.
    induction (m_rows Y) as [| row rows IH]; simpl; [reflexivity |].
    rewrite IH, mean_psd_row_empty. reflexivity.
  - intros k Hk. rewrite Hsel in Hk. contradiction.
Qed.

(** C4, as the code has it.  When the band keeps no frequency bin, in
    particular when its lower bound is not below its upper bound,
    [get_noise_fft] raises nothing: it returns not-a-number for every pixel,
    whatever the averaging method. *)
Theorem get_noise_fft_empty_band_is_nan g (Y : movie) (r : Q * Q)
  (method : string) :
  wf_movie Y -> m_T Y <> 0%nat ->
  (selected_bins (m_T Y) r = [] \/ snd r <= fst r) ->
  get_noise_fft g (Arr2 Y) r method = Ok (repeat NaN (length (m_rows Y))) /\
  ~ raises (get_noise_fft g (Arr2 Y) r method).
Proof.
  intros Hwf HT Hband.
  assert (Hsel : selected_bins (m_T Y) r = []).
  { destruct Hband as [H | H]; [exact H |].
    apply selected_bins_inverted; assumption. }
  pose proof (get_noise_fft_empty_band g Y r method Hwf HT Hsel) as E.
  split; [exact E |]. eapply raises_not_ok. exact E.
Qed.

Lemma wf_movie_1x4 : wf_movie movie_1x4.
Proof. repeat constructor. Qed.

Lemma get_noise_fft_empty_band_is_nan_witness :
  get_noise_fft module_globals (Arr2 movie_1x4) (6 # 10, 1 # 2) "logmexp"
  = Ok [NaN].
Proof.
  apply (get_noise_fft_empty_band_is_nan module_globals movie_1x4
           (6 # 10, 1 # 2) "logmexp").
  - exact wf_movie_1x4.
  - discriminate.
  - right. simpl. unfold Qle. simpl. lia.
Defined.

(** C4 as stated fails: with the band [0.6, 0.5] the estimator returns
    not-a-number and raises no error. *)
Lemma get_noise_fft_inverted_band_no_error :
  get_noise_fft module_globals (Arr2 movie_1x4) (6 # 10, 1 # 2) "logmexp"
  = Ok [NaN] /\
  ~ raises (get_noise_fft module_globals (Arr2 movie_1x4) (6 # 10, 1 # 2)
              "logmexp").
Proof.
  assert (E : get_noise_fft module_globals (Arr2 movie_1x4) (6 # 10, 1 # 2)
                "logmexp" = Ok [NaN]).
  { apply (get_noise_fft_empty_band module_globals movie_1x4 _ "logmexp"
             wf_movie_1x4).
    - discriminate.
    - reflexivity. }
  split; [exact E |]. eapply raises_not_ok. exact E.
Qed.


Lemma bin_freq_zero T : T <> 0%nat -> bin_freq T 0 == 0.
Proof.
  intros HT. rewrite bin_freq_frac by exact HT. reflexivity.
Qed.

Lemma bin_freq_last T : T <> 0%nat -> 1 # 2 <= bin_freq T ((T + 1) / 2).
Proof.
  intros HT. rewrite bin_freq_frac by exact HT.
  unfold Qle. cbn [Qnum Qden].
  assert (HP : Z.pos (Pos.of_nat T) = Z.of_nat T).
  { destruct T; [congruence |]. rewrite <- Pos.of_nat_succ. lia. }
  rewrite HP, Nat2Z.inj_div, Nat2Z.inj_add. simpl Z.of_nat.
  Z.div_mod_to_equations. lia.
Qed.



(** ** Sums over the roots of unity *)

Open Scope R_scope.

Lemma Rsum_S f n : Rsum f (S n) = Rsum f n + f n.
Proof.
  unfold Rsum. rewrite seq_S, map_app. simpl.
  generalize (map f (seq 0 n)). intros l.
  induction l as [| x l IH]; simpl; [lra |]. rewrite IH. lra.
Qed.

Lemma Rsum_ext_lt f h n :
  (forall j, (j < n)%nat -> f j = h j) -> Rsum f n = Rsum h n.
Proof.
  induction n as [| n IH]; intros H; [reflexivity |].
  rewrite !Rsum_S, IH, H by (intros; try apply H; lia). reflexivity.
Qed.

Lemma Rsum_scal c f n : Rsum (fun j => c * f j) n = c * Rsum f n.
Proof.
  induction n as [| n IH].
  - unfold Rsum. simpl. lra.
  - rewrite !Rsum_S, IH. lra.
Qed.

Lemma Rsum_plus f h n : Rsum (fun j => f j + h j) n = Rsum f n + Rsum h n.
Proof.
  induction n as [| n IH].
  - unfold Rsum. simpl. lra.
  - rewrite !Rsum_S, IH. lra.
Qed.

Lemma Rsum_zero n : Rsum (fun _ => 0) n = 0.
Proof.
  induction n as [| n IH]; [reflexivity |]. rewrite Rsum_S, IH. lra.
Qed.

Lemma Csum_fst (f : nat -> C) n :
  fst (Csum (map f (seq 0 n))) = Rsum (fun j => fst (f j)) n.
Proof.
  unfold Rsum. induction (seq 0 n) as [| j l IH]; simpl; [reflexivity |].
  rewrite IH. reflexivity.
Qed.

Lemma Csum_snd (f : nat -> C) n :
  snd (Csum (map f (seq 0 n))) = Rsum (fun j => snd (f j)) n.
Proof.
  unfold Rsum. induction (seq 0 n) as [| j l IH]; simpl; [reflexivity |].
  rewrite IH. reflexivity.
Qed.

Lemma cos_sum_telescope a m :
  2 * sin (a / 2) * Rsum (fun j => cos (INR j * a)) m
  = sin ((INR m - 1 / 2) * a) + sin (a / 2).
Proof.
  induction m as [| m IH].
  - unfold Rsum. simpl.
    replace ((0 - 1 / 2) * a) with (- (a / 2)) by lra.
    rewrite sin_neg. lra.
  - rewrite Rsum_S, Rmult_plus_distr_l, IH, S_INR.
    replace ((INR m + 1 - 1 / 2) * a) with (INR m * a + a / 2) by lra.
    replace ((INR m - 1 / 2) * a) with (INR m * a - a / 2) by lra.
    rewrite sin_plus, sin_minus. lra.
Qed.

Lemma sin_sum_telescope a m :
  2 * sin (a / 2) * Rsum (fun j => sin (INR j * a)) m
  = cos (a / 2) - cos ((INR m - 1 / 2) * a).
Proof.
  induction m as [| m IH].
  - unfold Rsum. simpl.
    replace ((0 - 1 / 2) * a) with (- (a / 2)) by lra.
    rewrite cos_neg. lra.
  - rewrite Rsum_S, Rmult_plus_distr_l, IH, S_INR.
    replace ((INR m + 1 - 1 / 2) * a) with (INR m * a + a / 2) by lra.
    replace ((INR m - 1 / 2) * a) with (INR m * a - a / 2) by lra.
    rewrite cos_plus, cos_minus. lra.
Qed.

Lemma root_angle_sin_pos n k : (0 < k < n)%nat ->
  0 < sin (2 * PI * INR k / INR n / 2).
Proof.
  intros Hk.
  assert (Hn : 0 < INR n) by (apply lt_0_INR; lia).
  assert (Hk0 : 0 < INR k) by (apply lt_0_INR; lia).
  assert (Hkn : INR k < INR n) by (apply lt_INR; lia).
  pose proof PI_RGT_0 as Hpi.
  replace (2 * PI * INR k / INR n / 2) with (PI * (INR k / INR n))
    by (field; lra).
  assert (0 < INR k / INR n < 1).
  { split.
    - apply Rdiv_lt_0_compat; assumption.
    - apply Rmult_lt_reg_r with (INR n); [assumption |].
      unfold Rdiv. rewrite Rmult_assoc, Rinv_l by lra. lra. }
  apply sin_gt_0; nra.
Qed.

(** The cosines of the multiples of a non-trivial [n]-th root angle sum to
    zero, and so do the sines. *)
Lemma cos_roots_sum n k : (0 < k < n)%nat ->
  Rsum (fun j => cos (INR j * (2 * PI * INR k / INR n))) n = 0.
Proof.
  intros Hk.
  pose proof (root_angle_sin_pos n k Hk) as Hs.
  pose proof (cos_sum_telescope (2 * PI * INR k / INR n) n) as H.
  assert (Hn : 0 < INR n) by (apply lt_0_INR; lia).
  replace ((INR n - 1 / 2) * (2 * PI * INR k / INR n))
    with (- (2 * PI * INR k / INR n / 2) + 2 * INR k * PI) in H
    by (field; lra).
  rewrite sin_period, sin_neg in H.
  nra.
Qed.

Lemma sin_roots_sum n k : (0 < k < n)%nat ->
  Rsum (fun j => sin (INR j * (2 * PI * INR k / INR n))) n = 0.
Proof.
  intros Hk.
  pose proof (root_angle_sin_pos n k Hk) as Hs.
  pose proof (sin_sum_telescope (2 * PI * INR k / INR n) n) as H.
  assert (Hn : 0 < INR n) by (apply lt_0_INR; lia).
  replace ((INR n - 1 / 2) * (2 * PI * INR k / INR n))
    with (- (2 * PI * INR k / INR n / 2) + 2 * INR k * PI) in H
    by (field; lra).
  rewrite cos_period, cos_neg in H.
  nra.
Qed.

(** ** Constant traces *)

Lemma nth_repeat_lt {A : Type} (c d : A) n j :
  (j < n)%nat -> nth j (repeat c n) d = c.
Proof.
  revert j. induction n as [| n IH]; intros j Hj; [lia |].
  destruct j; simpl; [reflexivity |]. apply IH. lia.
Qed.

(** The transform of a constant trace vanishes away from the zero
    frequency. *)
Lemma dft_coef_constant c T k : (0 < k < T)%nat ->
  dft_coef (-1) (repeat c T) T k = (0, 0).
Proof.
  intros Hk.
  assert (HT : 0 < INR T) by (apply lt_0_INR; lia).
  unfold dft_coef. apply injective_projections.
  - rewrite Csum_fst. simpl fst.
    rewrite (Rsum_ext_lt _
               (fun j => c * cos (INR j * (2 * PI * INR k / INR T)))).
    + rewrite Rsum_scal, cos_roots_sum by exact Hk. lra.
    + intros j Hj. unfold Cscal, cis. simpl fst.
      rewrite nth_repeat_lt by exact Hj.
      replace (-1 * (2 * PI * INR j * INR k / INR T))
        with (- (INR j * (2 * PI * INR k / INR T))) by (field; lra).
      rewrite cos_neg. reflexivity.
  - rewrite Csum_snd. simpl snd.
    rewrite (Rsum_ext_lt _
               (fun j => (- c) * sin (INR j * (2 * PI * INR k / INR T)))).
    + rewrite Rsum_scal, sin_roots_sum by exact Hk. lra.
    + intros j Hj. unfold Cscal, cis. simpl snd.
      rewrite nth_repeat_lt by exact Hj.
      replace (-1 * (2 * PI * INR j * INR k / INR T))
        with (- (INR j * (2 * PI * INR k / INR T))) by (field; lra).
      rewrite sin_neg. lra.
Qed.

Lemma psd_scale_nth T xdft k :
  (0 < k < length xdft)%nat ->
  nth k (psd_scale T xdft) 0 = 1 / INR T * Cabs (nth k xdft (0, 0)) ^ 2 * 2.
Proof.
  intros Hk. unfold psd_scale.
  destruct xdft as [| z zs]; simpl in Hk; [lia |].
  destruct k as [| k]; [lia |]. simpl.
  rewrite map_map.
  rewrite nth_map_lt with (d' := (0, 0)); [reflexivity |].
  unfold C in *. lia.
Qed.

Lemma Cabs_zero : Cabs (0, 0) = 0.
Proof.
  unfold Cabs. simpl. replace (0 * 0 + 0 * 0) with 0 by lra. apply sqrt_0.
Qed.

Lemma psd_row_constant c T k : (0 < k <= T / 2)%nat ->
  nth k (psd_row T (repeat c T)) 0 = 0.
Proof.
  intros Hk.
  assert (HT : (T <> 0)%nat) by (intros ->; simpl in Hk; lia).
  assert (HkT : (k < T)%nat).
  { pose proof (Nat.div_lt T 2). lia. }
  unfold psd_row. rewrite psd_scale_nth.
  - unfold rfft_row.
    rewrite nth_map_lt with (d' := 0%nat) by (rewrite length_seq; lia).
    rewrite seq_nth by lia. simpl Nat.add.
    rewrite dft_coef_constant by lia. rewrite Cabs_zero. lra.
  - unfold rfft_row. rewrite length_map, length_seq. lia.
Qed.

Close Scope R_scope.

(** ** Averaging a band of zero power *)

Open Scope R_scope.

Lemma fsum_zeros n : fsum (repeat (Fin 0) n) = Fin 0.
Proof.
  unfold fsum. induction n as [| n IH]; simpl; [reflexivity |].
  rewrite Rplus_0_l. exact IH.
Qed.

Lemma fsum_neg_infinities n : (0 < n)%nat -> fsum (repeat NInf n) = NInf.
Proof.
  intros Hn. unfold fsum. destruct n as [| n]; [lia |]. simpl.
  clear Hn. induction n as [| n IH]; simpl; [reflexivity | exact IH].
Qed.

Lemma np_sqrt_zero : np_sqrt (Fin 0) = Fin 0.
Proof.
  unfold np_sqrt. destruct (Rlt_dec 0 0) as [H | _]; [lra |].
  rewrite sqrt_0. reflexivity.
Qed.

Lemma np_log_zero : np_log 0 = NInf.
Proof.
  unfold np_log. destruct (Rlt_dec 0 0) as [H | _]; [lra | reflexivity].
Qed.

Lemma fdiv_count_zero n : (0 < n)%nat -> fdiv_count (Fin 0) n = Fin 0.
Proof.
  intros Hn. unfold fdiv_count, fdiv_R.
  assert (H : 0 < INR n) by (apply lt_0_INR; exact Hn).
  destruct (Req_dec_T (INR n) 0) as [E | _]; [lra |].
  f_equal. field. lra.
Qed.

Lemma Rinsert_zeros l : Forall (eq 0) l -> Forall (eq 0) (Rinsert 0 l).
Proof.
  induction l as [| y l IH]; intros H; simpl.
  - repeat constructor.
  - inversion H; subst.
    destruct (Rle_dec 0 0); constructor; auto.
Qed.

Lemma Rsort_zeros n : Forall (eq 0) (Rsort (repeat 0 n)).
Proof.
  induction n as [| n IH]; simpl; [constructor |].
  apply Rinsert_zeros. exact IH.
Qed.

Lemma nth_zeros l k : Forall (eq 0) l -> nth k l 0 = 0.
Proof.
  intros H. revert k. induction H as [| x l Hx _ IH]; intros k.
  - destruct k; reflexivity.
  - destruct k; simpl; [symmetry; exact Hx | apply IH].
Qed.

Lemma np_median_zeros n : (0 < n)%nat -> np_median (repeat 0 n) = Fin 0.
Proof.
  intros Hn. unfold np_median. rewrite repeat_length.
  destruct n as [| n]; [lia |].
  rewrite !nth_zeros by apply Rsort_zeros.
  destruct (Nat.even (S n)); f_equal. lra.
Qed.

(** Each of the three reductions maps a non-empty band of zero power to
    zero; so does any other method name, which is read as 'logmexp'. *)
Lemma mean_psd_row_zeros n method : (0 < n)%nat ->
  mean_psd_row (repeat 0 n) method = Fin 0.
Proof.
  intros Hn. unfold mean_psd_row.
  assert (Hz : 0 / 2 = 0) by lra.
  rewrite !map_repeat, Hz.
  destruct (String.eqb method "mean").
  - unfold np_mean. destruct n as [| n]; [lia |].
    change (Fin 0 :: repeat (Fin 0) n) with (repeat (Fin 0) (S n)).
    rewrite fsum_zeros, repeat_length, fdiv_count_zero by lia.
    apply np_sqrt_zero.
  - destruct (String.eqb method "median").
    + rewrite np_median_zeros by exact Hn. apply np_sqrt_zero.
    + rewrite np_log_zero. unfold np_mean.
      destruct n as [| n]; [lia |].
      change (NInf :: repeat NInf n) with (repeat NInf (S n)).
      rewrite fsum_neg_infinities by lia. simpl.
      apply np_sqrt_zero.
Qed.

Close Scope R_scope.

(** ** The noise of a constant movie *)

Lemma selected_bins_positive T r k : T <> 0%nat -> 0 <= fst r ->
  In k (selected_bins T r) -> (0 < k)%nat.
Proof.
  intros HT Hlo Hk. apply selected_bins_iff in Hk; [| exact HT].
  destruct Hk as (_ & Hlt & _).
  destruct k as [| k]; [| lia]. exfalso.
  rewrite bin_freq_zero in Hlt by exact HT.
  apply (Qlt_irrefl 0). eapply Qle_lt_trans; eassumption.
Qed.

Lemma map_const_repeat {A B : Type} (f : A -> B) (c : B) (l : list A) :
  (forall x, In x l -> f x = c) -> map f l = repeat c (length l).
Proof.
  induction l as [| x l IH]; intros H; simpl; [reflexivity |].
  rewrite H by (left; reflexivity).
  rewrite IH by (intros y Hy; apply H; right; exact Hy). reflexivity.
Qed.

Lemma row_noise_constant T r method c :
  T <> 0%nat -> 0 <= fst r -> snd r <= 1 # 2 -> selected_bins T r <> [] ->
  row_noise T r method (repeat c T) = Fin 0.
Proof.
  intros HT Hlo Hhi Hne. unfold row_noise, band_values.
  rewrite (map_const_repeat _ 0%R).
  - apply mean_psd_row_zeros.
    destruct (selected_bins T r); [congruence | simpl; lia].
  - intros k Hk. apply psd_row_constant. split.
    + eapply selected_bins_positive; eassumption.
    + eapply selected_bins_in_range; eassumption.
Qed.

(** From two samples on, the default band keeps the bin [T / 2]. *)
Lemma default_band_selects T : (2 <= T)%nat ->
  In (T / 2)%nat (selected_bins T default_noise_range).
Proof.
  intros HT. apply selected_bins_iff; [lia |].
  assert (HP : Z.pos (Pos.of_nat T) = Z.of_nat T).
  { destruct T; [lia |]. rewrite <- Pos.of_nat_succ. lia. }
  split; [| split].
  - apply Nat.Div0.div_le_mono. lia.
  - rewrite bin_freq_frac by lia. unfold default_noise_range, Qlt.
    cbn [fst Qnum Qden]. rewrite HP, Nat2Z.inj_div. simpl Z.of_nat.
    Z.div_mod_to_equations. lia.
  - rewrite bin_freq_frac by lia. unfold default_noise_range, Qle.
    cbn [snd Qnum Qden]. rewrite HP, Nat2Z.inj_div. simpl Z.of_nat.
    Z.div_mod_to_equations. lia.
Qed.

(** C8 as stated fails on a movie of one sample: the default band keeps no
    bin and the estimate is not-a-number, not 0. *)
Lemma get_noise_fft_constant_one_sample :
  constant_movie movie_1x1 /\
  get_noise_fft module_globals (Arr2 movie_1x1) default_noise_range "mean"
  = Ok [NaN] /\
  get_noise_fft module_globals (Arr2 movie_1x1) default_noise_range "median"
  = Ok [NaN] /\
  get_noise_fft module_globals (Arr2 movie_1x1) default_noise_range "logmexp"
  = Ok [NaN].
Proof.
  assert (Hwf : wf_movie movie_1x1) by (repeat constructor).
  assert (HT : m_T movie_1x1 <> 0%nat) by discriminate.
  split.
  - constructor; [| constructor]. exists 5%R. reflexivity.
  - repeat split;
      apply (get_noise_fft_empty_band module_globals movie_1x1 _ _ Hwf HT);
      reflexivity.
Qed.

(** C8, as the code has it.  For a movie whose traces are constant over time,
    with the default band and at least two samples, or with any band inside
    [0, 0.5] that keeps at least one bin, the estimate is 0 for every pixel,
    under 'mean', 'median', 'logmexp' and any other method name. *)
Theorem get_noise_fft_constant_movie g (Y : movie) (r : Q * Q)
  (method : string) :
  wf_movie Y -> constant_movie Y ->
  (r = default_noise_range /\ (2 <= m_T Y)%nat) \/
  (m_T Y <> 0%nat /\ 0 <= fst r /\ snd r <= 1 # 2 /\
   selected_bins (m_T Y) r <> []) ->
  get_noise_fft g (Arr2 Y) r method
  = Ok (repeat (Fin 0%R) (length (m_rows Y))).
Proof.
  intros Hwf Hconst Hband.
  assert (H : m_T Y <> 0%nat /\ 0 <= fst r /\ snd r <= 1 # 2 /\
              selected_bins (m_T Y) r <> []).
  { destruct Hband as [[-> HT] | H]; [| exact H].
    split; [lia |]. split; [discriminate |]. split; [discriminate |].
    intros E. pose proof (default_band_selects (m_T Y) HT) as Hin.
    rewrite E in Hin. contradiction. }
  destruct H as (HT & Hlo & Hhi & Hne).
  rewrite get_noise_fft_movie; try assumption.
  - f_equal. apply map_const_repeat. intros row Hrow.
    unfold constant_movie in Hconst. rewrite Forall_forall in Hconst.
    destruct (Hconst row Hrow) as [c ->].
    apply row_noise_constant; assumption.
  - intros k Hk. eapply selected_bins_in_range; eassumption.
Qed.

Lemma get_noise_fft_constant_movie_witness :
  get_noise_fft module_globals (Arr2 movie_const_2x4) default_noise_range
    "median" = Ok [Fin 0%R; Fin 0%R].
Proof.
  apply (get_noise_fft_constant_movie module_globals movie_const_2x4
           default_noise_range "median").
  - repeat constructor.
  - constructor; [exists 3%R; reflexivity |].
    constructor; [exists 7%R; reflexivity | constructor].
  - left. split; [reflexivity | simpl; lia].
Defined.

(** ** Index blocks *)

Open Scope Z_scope.

Lemma map_seq_from {A : Type} (f : nat -> A) s n :
  map f (seq s n) = map (fun k => f (s + k)%nat) (seq 0 n).
Proof.
  revert s f. induction n as [| n IH]; intros s f; simpl; [reflexivity |].
  rewrite Nat.add_0_r. f_equal.
  rewrite (IH (S s)), <- seq_shift, map_map.
  apply map_ext. intros k. f_equal. lia.
Qed.

Lemma py_range1_split a b c : a <= b <= c ->
  py_range1 a c = py_range1 a b ++ py_range1 b c.
Proof.
  intros H. unfold py_range1.
  replace (Z.to_nat (c - a)) with (Z.to_nat (b - a) + Z.to_nat (c - b))%nat
    by lia.
  rewrite seq_app, map_app. f_equal. simpl.
  rewrite map_seq_from. apply map_ext. intros k. lia.
Qed.

Lemma py_range1_In a b i : In i (py_range1 a b) <-> a <= i < b.
Proof.
  unfold py_range1. rewrite in_map_iff. split.
  - intros (k & <- & Hk). apply in_seq in Hk. lia.
  - intros H. exists (Z.to_nat (i - a)). split; [lia |].
    apply in_seq. lia.
Qed.

Lemma py_range1_NoDup a b : NoDup (py_range1 a b).
Proof.
  unfold py_range1. apply Finite.Injective_map_NoDup.
  - intros x y H. lia.
  - apply seq_NoDup.
Qed.

Lemma py_range1_to_nat a n : 0 <= a ->
  map Z.to_nat (py_range1 a (a + n)) = seq (Z.to_nat a) (Z.to_nat n).
Proof.
  intros Ha. unfold py_range1. rewrite map_map.
  replace (a + n - a) with n by lia.
  pose proof (map_seq_from (fun k => k) (Z.to_nat a) (Z.to_nat n)) as H.
  rewrite map_id in H. rewrite H.
  apply map_ext. intros k. lia.
Qed.

(** For a positive group size the groups start at 0, G, 2G, ..., one for
    each whole group. *)
Lemma pixel_groups_pos N G : 0 <= N -> 0 < G ->
  py_range 0 (N - G + 1) G
  = Ok (map (fun k => Z.of_nat k * G) (seq 0 (Z.to_nat (N / G)))).
Proof.
  intros HN HG. unfold py_range.
  destruct (Z.eqb_spec G 0) as [E | _]; [lia |].
  destruct (Z.ltb_spec 0 G) as [_ | E]; [| lia].
  replace (N - G + 1 - 0 + G - 1) with N by lia.
  f_equal.
Qed.

Lemma whole_groups_concat G q : 0 < G ->
  concat (map (fun i => py_range1 i (i + G))
              (map (fun k => Z.of_nat k * G) (seq 0 q)))
  = py_range1 0 (Z.of_nat q * G).
Proof.
  intros HG. induction q as [| q IH].
  - reflexivity.
  - rewrite seq_S, !map_app, concat_app, IH.
    cbn [map concat Nat.add]. rewrite app_nil_r.
    rewrite (py_range1_split 0 (Z.of_nat q * G) (Z.of_nat (S q) * G)) by nia.
    f_equal. f_equal. lia.
Qed.

(** The dispatched blocks, laid end to end, are the indices 0, ..., N-1 in
    order. *)
Lemma dispatched_blocks_concat N G : 0 <= N -> 0 < G ->
  exists blocks, dispatched_blocks N G = Ok blocks /\
                 concat blocks = py_range1 0 N.
Proof.
  intros HN HG. unfold dispatched_blocks.
  rewrite pixel_groups_pos by assumption. simpl bind.
  unfold py_mod. destruct (Z.eqb_spec G 0) as [E | _]; [lia |]. simpl bind.
  eexists. split; [reflexivity |].
  rewrite concat_app, whole_groups_concat by exact HG.
  pose proof (Z.mod_pos_bound N G HG) as Hr.
  pose proof (Z.div_mod N G ltac:(lia)) as Hdm.
  assert (Hq : 0 <= N / G) by (apply Z.div_pos; lia).
  rewrite Z2Nat.id by exact Hq.
  destruct (Z.ltb_spec 0 (N mod G)) as [Hpos | Hz].
  - simpl. rewrite app_nil_r.
    rewrite (py_range1_split 0 (N / G * G) N) by nia.
    f_equal. f_equal; lia.
  - simpl. rewrite app_nil_r. f_equal. lia.
Qed.

Close Scope Z_scope.

(** ** One block: [fft_psd_parallel] *)

Lemma norm_index_nonneg n i k : (0 <= i)%Z ->
  norm_index n i = Ok k -> k = Z.to_nat i /\ (k < n)%nat.
Proof.
  intros Hi. unfold norm_index.
  destruct (Z.leb_spec 0 i) as [_ | H]; [| lia].
  destruct (Z.ltb_spec i (Z.of_nat n)) as [Hlt | Hge]; simpl.
  - intros E. inversion E. lia.
  - destruct (Z.ltb_spec i 0) as [H | _]; [lia |]. simpl. discriminate.
Qed.

Lemma norm_index_of_nat n k : (k < n)%nat ->
  norm_index n (Z.of_nat k) = Ok k.
Proof.
  intros Hk. unfold norm_index.
  destruct (Z.leb_spec 0 (Z.of_nat k)) as [_ | H]; [| lia].
  destruct (Z.ltb_spec (Z.of_nat k) (Z.of_nat n)) as [_ | H]; [| lia].
  simpl. rewrite Nat2Z.id. reflexivity.
Qed.

Lemma mapM_norm_index_nonneg n idxs ks :
  Forall (fun i => (0 <= i)%Z) idxs ->
  mapM (norm_index n) idxs = Ok ks ->
  ks = map Z.to_nat idxs /\ Forall (fun k => (k < n)%nat) ks.
Proof.
  intros Hall. revert ks. induction Hall as [| i idxs Hi _ IH]; intros ks H.
  - simpl in H. inversion H. split; constructor.
  - simpl in H.
    destruct (norm_index n i) as [k |] eqn:Ek; simpl in H; [| discriminate].
    destruct (mapM (norm_index n) idxs) as [ks' |]; simpl in H;
      [| discriminate].
    inversion H; subst. destruct (IH ks' eq_refl) as [-> Hlt].
    destruct (norm_index_nonneg n i k Hi Ek) as [-> Hk].
    split; [reflexivity | constructor; assumption].
Qed.

Lemma list_set_length {A : Type} (a : list A) k v :
  length (list_set a k v) = length a.
Proof.
  revert k. induction a as [| x a IH]; intros k; simpl; [reflexivity |].
  destruct k; simpl; [reflexivity |]. rewrite IH. reflexivity.
Qed.

Lemma fold_write1_written kvs st :
  written (fold_left write1 kvs st) = written st ++ map fst kvs /\
  length (sn_s (fold_left write1 kvs st)) = length (sn_s st).
Proof.
  revert st. induction kvs as [| kv kvs IH]; intros st; simpl.
  - rewrite app_nil_r. split; reflexivity.
  - destruct (IH (write1 st kv)) as [Hw Hl]. rewrite Hw, Hl. simpl.
    rewrite list_set_length, <- app_assoc. split; reflexivity.
Qed.

Lemma map_fst_combine {A B : Type} (l : list A) (l' : list B) :
  length l' = length l -> map fst (combine l l') = l.
Proof.
  revert l'. induction l as [| x l IH]; intros l' H; simpl; [reflexivity |].
  destruct l' as [| y l']; simpl in *; [discriminate |].
  rewrite IH by lia. reflexivity.
Qed.

(** Whenever a block call returns, it has written the positions of its
    block, each once and in order, and nothing else. *)
Lemma fft_psd_parallel_written g Y st i n kw st' : (0 <= i)%Z ->
  fft_psd_parallel g Y st i n kw = Ok st' ->
  written st' = written st ++ map Z.to_nat (py_range1 i (i + n)) /\
  length (sn_s st') = length (sn_s st).
Proof.
  intros Hi. unfold fft_psd_parallel.
  destruct (take_rows Y (py_range1 i (i + n))) as [Yi |]; simpl;
    [| discriminate].
  destruct (get_noise_fft g (Arr2 Yi) (kw_range kw) (kw_method kw))
    as [res |]; simpl; [| discriminate].
  unfold set_idxs.
  destruct (mapM (norm_index (length (sn_s st))) (py_range1 i (i + n)))
    as [ks |] eqn:Eks; simpl; [| discriminate].
  destruct (Nat.eqb_spec (length res) (length ks)) as [El | _];
    [| discriminate].
  intros E. inversion E; subst st'; clear E.
  apply mapM_norm_index_nonneg in Eks.
  - destruct Eks as [-> _].
    destruct (fold_write1_written (combine (map Z.to_nat (py_range1 i (i + n)))
                                           res) st) as [Hw Hl].
    rewrite Hw, Hl, map_fst_combine by exact El. split; reflexivity.
  - apply Forall_forall. intros j Hj. apply py_range1_In in Hj. lia.
Qed.

(** ** The orchestrator: which positions are written *)

Lemma foldM_blocks_written g Y G kw l st st' :
  Forall (fun i => (0 <= i)%Z) l ->
  foldM (fun i st => fft_psd_parallel g Y st i G kw) l st = Ok st' ->
  written st' =
    written st ++ flat_map (fun i => map Z.to_nat (py_range1 i (i + G))) l /\
  length (sn_s st') = length (sn_s st).
Proof.
  intros Hall. revert st. induction Hall as [| i l Hi _ IH]; intros st H.
  - simpl in H. inversion H. simpl. rewrite app_nil_r. split; reflexivity.
  - simpl in H.
    destruct (fft_psd_parallel g Y st i G kw) as [st1 |] eqn:E1; simpl in H;
      [| discriminate].
    destruct (fft_psd_parallel_written g Y st i G kw st1 Hi E1) as [Hw1 Hl1].
    destruct (IH st1 H) as [Hw Hl].
    rewrite Hw, Hw1, Hl, Hl1. simpl. rewrite <- app_assoc.
    split; reflexivity.
Qed.

Lemma whole_groups_positions G q : (0 < G)%Z ->
  flat_map (fun i => map Z.to_nat (py_range1 i (i + G)))
           (map (fun k => (Z.of_nat k * G)%Z) (seq 0 q))
  = seq 0 (q * Z.to_nat G).
Proof.
  intros HG. rewrite flat_map_concat_map.
  rewrite <- (map_map (fun i => py_range1 i (i + G)) (map Z.to_nat)).
  rewrite <- concat_map, whole_groups_concat by exact HG.
  pose proof (py_range1_to_nat 0 (Z.of_nat q * G) ltac:(lia)) as H.
  simpl Z.add in H. rewrite H. f_equal. nia.
Qed.

(** Whenever the orchestrator returns, the positions written are, up to the
    order of the writes, exactly 0, ..., N-1, each once. *)
Lemma get_noise_fft_parallel_written schedule g Y k G bk kw st :
  (0 < G)%Z -> (forall l, Permutation (schedule l) l) ->
  get_noise_fft_parallel_sched schedule g Y k G bk kw = Ok st ->
  Permutation (written st) (seq 0 (length (m_rows Y))) /\
  length (sn_s st) = length (m_rows Y).
Proof.
  intros HG Hperm. unfold get_noise_fft_parallel_sched.
  set (N := n_pixels Y).
  assert (HN : (0 <= N)%Z) by (unfold N, n_pixels; lia).
  rewrite pixel_groups_pos by assumption. simpl bind.
  destruct (Z.eqb_spec k 0) as [_ | _]; simpl bind; [discriminate |].
  set (groups := map (fun j => (Z.of_nat j * G)%Z) (seq 0 (Z.to_nat (N / G)))).
  destruct (foldM (fun i st0 => fft_psd_parallel g Y st0 i G kw)
                  (schedule groups) (memmap_new N)) as [st1 |] eqn:E1;
    simpl bind; [| discriminate].
  assert (Hnonneg : Forall (fun i => (0 <= i)%Z) (schedule groups)).
  { apply Forall_forall. intros i Hi.
    apply (Permutation_in _ (Hperm groups)) in Hi.
    unfold groups in Hi. apply in_map_iff in Hi.
    destruct Hi as (j & <- & _). lia. }
  destruct (foldM_blocks_written g Y G kw _ _ _ Hnonneg E1) as [Hw1 Hl1].
  simpl written in Hw1. simpl sn_s in Hl1. rewrite repeat_length in Hl1.
  assert (HP1 : Permutation (written st1)
                            (seq 0 (Z.to_nat (N / G) * Z.to_nat G))).
  { rewrite Hw1. simpl app.
    rewrite <- (whole_groups_positions G (Z.to_nat (N / G)) HG).
    apply Permutation_flat_map. apply Hperm. }
  unfold py_mod. destruct (Z.eqb_spec G 0) as [E | _]; [lia |]. simpl bind.
  pose proof (Z.mod_pos_bound N G HG) as Hr.
  pose proof (Z.div_mod N G ltac:(lia)) as Hdm.
  assert (Hq : (0 <= N / G)%Z) by (apply Z.div_pos; lia).
  assert (HNn : Z.to_nat N = length (m_rows Y)).
  { unfold N, n_pixels. apply Nat2Z.id. }
  destruct (Z.ltb_spec 0 (N mod G)) as [Hpos | Hz].
  - intros E2.
    destruct (fft_psd_parallel_written g Y st1 (N - N mod G) (N mod G)
                no_kwargs st ltac:(lia) E2) as [Hw2 Hl2].
    split; [| lia].
    rewrite Hw2, py_range1_to_nat by lia.
    rewrite <- HNn.
    replace (Z.to_nat N)
      with (Z.to_nat (N / G) * Z.to_nat G + Z.to_nat (N mod G))%nat by nia.
    rewrite seq_app. apply Permutation_app; [exact HP1 |].
    replace (Z.to_nat (N - N mod G))
      with (0 + Z.to_nat (N / G) * Z.to_nat G)%nat by nia.
    apply Permutation_refl.
  - intros E2. inversion E2; subst st.
    split; [| lia].
    rewrite <- HNn.
    replace (Z.to_nat N) with (Z.to_nat (N / G) * Z.to_nat G)%nat by nia.
    exact HP1.
Qed.

(** ** The orchestrator: what is written *)

Lemma nth_error_list_set {A : Type} (a : list A) k v i :
  (k < length a)%nat ->
  nth_error (list_set a k v) i = if Nat.eqb i k then Some v else nth_error a i.
Proof.
  revert k i. induction a as [| x a IH]; intros k i Hk; simpl in Hk; [lia |].
  destruct k as [| k]; destruct i as [| i]; simpl; try reflexivity.
  apply IH. lia.
Qed.

Lemma write_block_spec v val N ks :
  Forall (fun k => (k < N)%nat /\ val k = v k) ks ->
  forall st, length (sn_s st) = N -> holds_at v st ->
  holds_at v (write_block val ks st) /\
  length (sn_s (write_block val ks st)) = N /\
  written (write_block val ks st) = written st ++ ks.
Proof.
  intros Hks.
  induction Hks as [| k ks [Hk Hv] _ IH]; intros st Hlen Hinv.
  - simpl. rewrite app_nil_r. repeat split; auto.
  - simpl.
    assert (Hstep : holds_at v (write1 st (k, val k))).
    { unfold holds_at, write1. simpl.
      apply Forall_app. split.
      - unfold holds_at in Hinv. rewrite Forall_forall in *.
        intros i Hi. rewrite nth_error_list_set by lia.
        destruct (Nat.eqb_spec i k) as [-> | _];
          [rewrite Hv; reflexivity | apply Hinv; exact Hi].
      - constructor; [| constructor].
        rewrite nth_error_list_set by lia.
        rewrite Nat.eqb_refl, Hv. reflexivity. }
    assert (Hlen' : length (sn_s (write1 st (k, val k))) = N).
    { unfold write1. simpl. rewrite list_set_length. exact Hlen. }
    destruct (IH _ Hlen' Hstep) as (H1 & H2 & H3).
    unfold write_block in *. rewrite H3. simpl.
    rewrite <- app_assoc. repeat split; assumption.
Qed.

(** A buffer whose every position has been written holds [v] everywhere. *)
Lemma holds_at_all v st N :
  holds_at v st -> length (sn_s st) = N ->
  Permutation (written st) (seq 0 N) ->
  sn_s st = map v (seq 0 N).
Proof.
  intros Hinv Hlen Hperm. apply nth_error_ext. intros i.
  rewrite nth_error_map, nth_error_seq.
  destruct (Nat.ltb_spec i N) as [Hi | Hi]; simpl.
  - unfold holds_at in Hinv. rewrite Forall_forall in Hinv.
    apply Hinv. apply (Permutation_in _ (Permutation_sym Hperm)).
    apply in_seq. lia.
  - apply nth_error_None. lia.
Qed.

Lemma py_range1_of_nat i n :
  py_range1 (Z.of_nat i) (Z.of_nat i + Z.of_nat n) = map Z.of_nat (seq i n).
Proof.
  unfold py_range1.
  replace (Z.of_nat i + Z.of_nat n - Z.of_nat i)%Z with (Z.of_nat n) by lia.
  rewrite Nat2Z.id, (map_seq_from Z.of_nat i n).
  apply map_ext. intros k. lia.
Qed.

Lemma get_item_of_nat {A : Type} (a : list A) k d : (k < length a)%nat ->
  get_item a (Z.of_nat k) = Ok (nth k a d).
Proof.
  intros Hk. unfold get_item. rewrite norm_index_of_nat by exact Hk.
  simpl. destruct (nth_error a k) as [x |] eqn:E.
  - rewrite (nth_error_nth _ _ d E). reflexivity.
  - apply nth_error_None in E. lia.
Qed.

Lemma take_rows_block Y i n : (i + n <= length (m_rows Y))%nat ->
  take_rows Y (py_range1 (Z.of_nat i) (Z.of_nat i + Z.of_nat n))
  = Ok {| m_T := m_T Y; m_rows := map (row_at Y) (seq i n) |}.
Proof.
  intros H. unfold take_rows, take_idxs.
  rewrite py_range1_of_nat.
  rewrite (mapM_map_ok _ _ (row_at Y)).
  - reflexivity.
  - intros k Hk. apply in_seq in Hk.
    apply get_item_of_nat. lia.
Qed.

Lemma fold_write1_combine val ks st :
  fold_left write1 (combine ks (map val ks)) st = write_block val ks st.
Proof.
  unfold write_block. revert st.
  induction ks as [| k ks IH]; intros st; simpl; [reflexivity |]. apply IH.
Qed.

(** A block inside the movie: the call returns, having written the noise
    level of each of its rows at that row's position. *)
Lemma fft_psd_parallel_block g Y st i n kw :
  wf_movie Y -> m_T Y <> 0%nat -> snd (kw_range kw) <= 1 # 2 ->
  length (sn_s st) = length (m_rows Y) ->
  (i + n <= length (m_rows Y))%nat ->
  fft_psd_parallel g Y st (Z.of_nat i) (Z.of_nat n) kw
  = Ok (write_block (kw_val Y kw) (seq i n) st).
Proof.
  intros Hwf HT Hhi Hlen Hin. unfold fft_psd_parallel.
  rewrite take_rows_block by exact Hin. simpl bind.
  rewrite get_noise_fft_movie.
  - simpl bind. simpl m_rows. simpl m_T. unfold set_idxs.
    rewrite py_range1_of_nat.
    rewrite (mapM_map_ok _ _ (fun k => k)).
    + simpl bind. rewrite map_id, !length_map, Nat.eqb_refl, map_map.
      rewrite <- fold_write1_combine. reflexivity.
    + intros k Hk. apply in_seq in Hk. apply norm_index_of_nat. lia.
  - unfold wf_movie in *. simpl. rewrite Forall_forall in *.
    intros row Hrow. apply in_map_iff in Hrow.
    destruct Hrow as (k & <- & Hk). apply in_seq in Hk.
    apply Hwf. unfold row_at. apply nth_In. lia.
  - exact HT.
  - simpl. intros k Hk. eapply selected_bins_in_range; eassumption.
Qed.

Lemma serial_noise_movie g Y kw :
  wf_movie Y -> m_T Y <> 0%nat -> snd (kw_range kw) <= 1 # 2 ->
  serial_noise g Y kw = Ok (map (kw_val Y kw) (seq 0 (length (m_rows Y)))).
Proof.
  intros Hwf HT Hhi. unfold serial_noise.
  rewrite get_noise_fft_movie; try assumption.
  - f_equal. unfold kw_val, row_at.
    rewrite <- (map_map (fun k => nth k (m_rows Y) [])
                        (row_noise (m_T Y) (kw_range kw) (kw_method kw))).
    f_equal. symmetry. apply nth_error_ext. intros i.
    rewrite nth_error_map, nth_error_seq.
    destruct (Nat.ltb_spec i (length (m_rows Y))) as [Hi | Hi]; simpl.
    + symmetry. apply nth_error_nth'. exact Hi.
    + symmetry. apply nth_error_None. lia.
  - intros k Hk. eapply selected_bins_in_range; eassumption.
Qed.

Lemma foldM_blocks_run g Y G kw v M l :
  wf_movie Y -> m_T Y <> 0%nat -> snd (kw_range kw) <= 1 # 2 ->
  (0 < G)%Z -> (M <= length (m_rows Y))%nat ->
  (forall k, (k < M)%nat -> kw_val Y kw k = v k) ->
  Forall (fun i => (0 <= i)%Z /\ (Z.to_nat i + Z.to_nat G <= M)%nat) l ->
  forall st, length (sn_s st) = length (m_rows Y) -> holds_at v st ->
  exists st',
    foldM (fun i st => fft_psd_parallel g Y st i G kw) l st = Ok st' /\
    holds_at v st' /\ length (sn_s st') = length (m_rows Y).
Proof.
  intros Hwf HT Hhi HG HM Hv Hl.
  induction Hl as [| i l [Hi Hin] _ IH]; intros st Hlen Hinv.
  - exists st. simpl. auto.
  - simpl.
    replace (fft_psd_parallel g Y st i G kw)
      with (fft_psd_parallel g Y st (Z.of_nat (Z.to_nat i))
              (Z.of_nat (Z.to_nat G)) kw)
      by (rewrite !Z2Nat.id by lia; reflexivity).
    rewrite fft_psd_parallel_block; try assumption; [| lia].
    simpl bind.
    destruct (write_block_spec v (kw_val Y kw) (length (m_rows Y))
                (seq (Z.to_nat i) (Z.to_nat G))) with (st := st)
      as (H1 & H2 & _); try assumption.
    { apply Forall_forall. intros k Hk. apply in_seq in Hk.
      split; [lia | apply Hv; lia]. }
    apply IH; assumption.
Qed.

(** The orchestrator returns on every well-formed movie, and leaves at
    each position the value [parallel_val]. *)
Lemma get_noise_fft_parallel_run schedule g Y k G bk kw :
  wf_movie Y -> m_T Y <> 0%nat -> snd (kw_range kw) <= 1 # 2 ->
  (0 < G)%Z -> k <> 0%Z -> (forall l, Permutation (schedule l) l) ->
  let N := length (m_rows Y) in
  let r := Z.to_nat (Z.of_nat N mod G) in
  exists st,
    get_noise_fft_parallel_sched schedule g Y k G bk kw = Ok st /\
    sn_s st = map (parallel_val Y kw N r) (seq 0 N) /\
    Permutation (written st) (seq 0 N).
Proof.
  intros Hwf HT Hhi HG Hk Hperm N r.
  pose proof (Z.mod_pos_bound (Z.of_nat N) G HG) as Hr.
  pose proof (Z.div_mod (Z.of_nat N) G ltac:(lia)) as Hdm.
  assert (Hq : (0 <= Z.of_nat N / G)%Z) by (apply Z.div_pos; lia).
  set (v := parallel_val Y kw N r).
  set (groups := map (fun j => (Z.of_nat j * G)%Z)
                     (seq 0 (Z.to_nat (Z.of_nat N / G)))).
  assert (Hgroups : Forall (fun i => (0 <= i)%Z /\
                                     (Z.to_nat i + Z.to_nat G <= N - r)%nat)
                           (schedule groups)).
  { apply Forall_forall. intros i Hi.
    apply (Permutation_in _ (Hperm groups)) in Hi.
    unfold groups in Hi. apply in_map_iff in Hi.
    destruct Hi as (j & <- & Hj). apply in_seq in Hj.
    split; [lia |]. unfold r. nia. }
  destruct (foldM_blocks_run g Y G kw v (N - r) (schedule groups)
              Hwf HT Hhi HG ltac:(lia)) with (st := memmap_new (n_pixels Y))
    as (st1 & E1 & Hinv1 & Hlen1).
  { intros i Hi. unfold v, parallel_val.
    destruct (Nat.ltb_spec i (N - r)); [reflexivity | lia]. }
  { exact Hgroups. }
  { simpl. rewrite repeat_length. unfold n_pixels. apply Nat2Z.id. }
  { unfold holds_at. simpl. constructor. }
  assert (Hrun : exists st,
             get_noise_fft_parallel_sched schedule g Y k G bk kw = Ok st /\
             holds_at v st).
  { unfold get_noise_fft_parallel_sched.
    rewrite pixel_groups_pos by (unfold n_pixels; lia). simpl bind.
    destruct (Z.eqb_spec k 0) as [E | _]; [contradiction |]. simpl bind.
    fold N in E1. unfold n_pixels. fold N. fold groups.
    unfold n_pixels in E1. fold N in E1. rewrite E1. simpl bind.
    unfold py_mod. destruct (Z.eqb_spec G 0) as [E | _]; [lia |]. simpl bind.
    destruct (Z.ltb_spec 0 (Z.of_nat N mod G)) as [Hpos | Hz].
    - replace (Z.of_nat N - Z.of_nat N mod G)%Z with (Z.of_nat (N - r))
        by (unfold r; lia).
      replace (Z.of_nat N mod G)%Z with (Z.of_nat r) by (unfold r; lia).
      rewrite fft_psd_parallel_block; try assumption.
      + eexists. split; [reflexivity |].
        apply (write_block_spec v (kw_val Y no_kwargs) N); try assumption.
        apply Forall_forall. intros i Hi. apply in_seq in Hi.
        split; [lia |]. unfold v, parallel_val.
        destruct (Nat.ltb_spec i (N - r)); [lia | reflexivity].
      + simpl. unfold Qle. simpl. lia.
      + fold N. unfold r. lia.
    - exists st1. split; [reflexivity | exact Hinv1]. }
  destruct Hrun as (st & Erun & Hinv).
  destruct (get_noise_fft_parallel_written schedule g Y k G bk kw st HG Hperm
              Erun) as [Hp Hl].
  exists st. split; [exact Erun |]. split; [| exact Hp].
  apply holds_at_all; assumption.
Qed.

(** ** Disjoint cover *)

Lemma NoDup_app_disjoint {A : Type} (l l' : list A) x :
  NoDup (l ++ l') -> In x l -> In x l' -> False.
Proof.
  induction l as [| y l IH]; intros Hnd Hl Hl'; [contradiction |].
  simpl in Hnd. inversion Hnd as [| ? ? Hnotin Hnd']; subst.
  destruct Hl as [-> | Hl].
  - apply Hnotin. apply in_or_app. right. exact Hl'.
  - apply IH; assumption.
Qed.

Lemma In_nth_concat {A : Type} (ls : list (list A)) b x :
  In x (nth b ls []) -> In x (concat ls).
Proof.
  revert b. induction ls as [| l ls IH]; intros b H.
  - destruct b; contradiction.
  - simpl. apply in_or_app. destruct b as [| b]; [left; exact H |].
    right. apply (IH b). exact H.
Qed.

Lemma NoDup_concat_disjoint {A : Type} (ls : list (list A)) a b x :
  NoDup (concat ls) -> a <> b ->
  In x (nth a ls []) -> In x (nth b ls []) -> False.
Proof.
  revert a b. induction ls as [| l ls IH]; intros a b Hnd Hab Ha Hb.
  - destruct a; contradiction.
  - simpl in Hnd. destruct a as [| a], b as [| b]; simpl in Ha, Hb.
    + congruence.
    + apply (NoDup_app_disjoint l (concat ls) x Hnd Ha).
      eapply In_nth_concat. exact Hb.
    + apply (NoDup_app_disjoint l (concat ls) x Hnd Hb).
      eapply In_nth_concat. exact Ha.
    + apply (IH a b); try assumption; [| congruence].
      eapply NoDup_app_remove_l. exact Hnd.
Qed.



(** ** Parallel against serial *)

(** Where the remainder pass cannot differ (no remaining pixel, or keyword
    arguments equal to the defaults), the parallel estimator returns the
    vector of the serial one, whatever the number of workers, the group size
    and the order of execution. *)
Lemma get_noise_fft_parallel_agrees schedule g Y k G bk kw :
  wf_movie Y -> m_T Y <> 0%nat -> snd (kw_range kw) <= 1 # 2 ->
  (0 < G)%Z -> k <> 0%Z -> (forall l, Permutation (schedule l) l) ->
  ((n_pixels Y mod G = 0)%Z \/
   (kw_range kw = default_noise_range /\
    kw_method kw = default_noise_method)) ->
  exists st,
    get_noise_fft_parallel_sched schedule g Y k G bk kw = Ok st /\
    serial_noise g Y kw = Ok (sn_s st).
Proof.
  intros Hwf HT Hhi HG Hk Hperm Hcase.
  destruct (get_noise_fft_parallel_run schedule g Y k G bk kw Hwf HT Hhi HG
              Hk Hperm) as (st & E & Hs & _).
  exists st. split; [exact E |].
  rewrite serial_noise_movie by assumption. f_equal.
  rewrite Hs. apply map_ext_in. intros i Hi. apply in_seq in Hi.
  unfold parallel_val.
  destruct (Nat.ltb_spec i (length (m_rows Y) -
                            Z.to_nat (Z.of_nat (length (m_rows Y)) mod G)))
    as [_ | Hge]; [reflexivity |].
  destruct Hcase as [Hz | [Hr Hm]].
  - unfold n_pixels in Hz. rewrite Hz in Hge. simpl in Hge. lia.
  - unfold kw_val. rewrite Hr, Hm. reflexivity.
Qed.

Open Scope R_scope.

Lemma Cabs_sqr z : Cabs z ^ 2 = fst z * fst z + snd z * snd z.
Proof.
  unfold Cabs. apply pow2_sqrt. nra.
Qed.

Lemma dft_1010_bin1 : dft_coef (-1) [1; 0; 1; 0] 4 1 = (0, 0).
Proof.
  unfold dft_coef, Csum. cbn [seq map fold_right nth].
  replace (-1 * (2 * PI * INR 0 * INR 1 / INR 4)) with 0 by (simpl; field).
  replace (-1 * (2 * PI * INR 2 * INR 1 / INR 4)) with (- PI)
    by (simpl; field).
  unfold Cscal, Cadd, cis. cbn [fst snd].
  rewrite cos_0, sin_0, cos_neg, sin_neg, cos_PI, sin_PI.
  f_equal; lra.
Qed.

Lemma dft_1010_bin2 : dft_coef (-1) [1; 0; 1; 0] 4 2 = (2, 0).
Proof.
  unfold dft_coef, Csum. cbn [seq map fold_right nth].
  replace (-1 * (2 * PI * INR 0 * INR 2 / INR 4)) with 0 by (simpl; field).
  replace (-1 * (2 * PI * INR 2 * INR 2 / INR 4)) with (- (2 * PI))
    by (simpl; field).
  unfold Cscal, Cadd, cis. cbn [fst snd].
  rewrite cos_0, sin_0, cos_neg, sin_neg, cos_2PI, sin_2PI.
  f_equal; lra.
Qed.

Lemma psd_1010_bin1 : nth 1 (psd_row 4 [1; 0; 1; 0]) 0 = 0.
Proof.
  unfold psd_row. rewrite psd_scale_nth.
  - unfold rfft_row. cbn [Nat.div Nat.divmod fst Nat.add seq map nth].
    rewrite dft_1010_bin1, Cabs_sqr. cbn [fst snd]. lra.
  - unfold rfft_row. rewrite length_map, length_seq. simpl. lia.
Qed.

Lemma psd_1010_bin2 : nth 2 (psd_row 4 [1; 0; 1; 0]) 0 = 2.
Proof.
  unfold psd_row. rewrite psd_scale_nth.
  - unfold rfft_row. cbn [Nat.div Nat.divmod fst Nat.add seq map nth].
    rewrite dft_1010_bin2, Cabs_sqr. cbn [fst snd]. simpl INR. field.
  - unfold rfft_row. rewrite length_map, length_seq. simpl. lia.
Qed.

Lemma row_noise_1010_low_mean :
  row_noise 4 (0%Q, 1 # 4) "mean" [1; 0; 1; 0] = Fin 0.
Proof.
  unfold row_noise, band_values.
  change (selected_bins 4 (0%Q, 1 # 4)) with [1%nat].
  cbn [map]. rewrite psd_1010_bin1.
  apply (mean_psd_row_zeros 1 "mean"). lia.
Qed.

Lemma row_noise_1010_default :
  row_noise 4 default_noise_range default_noise_method [1; 0; 1; 0] = Fin 1.
Proof.
  unfold row_noise, band_values.
  change (selected_bins 4 default_noise_range) with [2%nat].
  cbn [map]. rewrite psd_1010_bin2.
  unfold mean_psd_row, default_noise_method. cbn [String.eqb Ascii.eqb Bool.eqb].
  cbn [map]. replace (2 / 2) with 1 by lra.
  unfold np_log. destruct (Rlt_dec 0 1) as [_ | H]; [| lra].
  rewrite ln_1. unfold np_mean, fsum. cbn [fold_left fadd length].
  unfold fdiv_count, fdiv_R.
  destruct (Req_dec_T (INR 1) 0) as [E | _]; [simpl in E; lra |].
  replace ((0 + 0) / INR 1) with 0 by (simpl; lra).
  cbn [np_exp]. rewrite exp_0. unfold np_sqrt.
  destruct (Rlt_dec 1 0) as [H | _]; [lra |].
  rewrite sqrt_1. reflexivity.
Qed.

Close Scope R_scope.

Lemma wf_movie_3x4 : wf_movie movie_3x4.
Proof. repeat constructor. Qed.

(** C1, evaluated where it fails.  On a movie of three pixels with groups of
    two, called with [noise_range=[0, 0.25]] and [noise_method='mean'], the
    serial estimator returns 0 for every pixel, while the parallel one
    returns 0 for the two pixels of the whole group and 1 for the remaining
    pixel: the remainder call is made without the keyword arguments, hence
    with the default band and method. *)
Theorem get_noise_fft_parallel_remainder_uses_defaults :
  serial_noise module_globals movie_3x4 kw_low_mean
  = Ok [Fin 0%R; Fin 0%R; Fin 0%R] /\
  exists st,
    get_noise_fft_parallel module_globals movie_3x4 4 2 threading kw_low_mean
    = Ok st /\
    sn_s st = [Fin 0%R; Fin 0%R; Fin 1%R] /\
    serial_noise module_globals movie_3x4 kw_low_mean <> Ok (sn_s st).
Proof.
  assert (HT : m_T movie_3x4 <> 0%nat) by discriminate.
  assert (Hhi : snd (kw_range kw_low_mean) <= 1 # 2)
    by (simpl; unfold Qle; simpl; lia).
  split.
  - rewrite (serial_noise_movie module_globals movie_3x4 kw_low_mean
               wf_movie_3x4 HT Hhi).
    f_equal. cbn [movie_3x4 m_rows length seq map].
    change (kw_val movie_3x4 kw_low_mean 0)
      with (row_noise 4 (0, 1 # 4) "mean" [1; 0; 1; 0]%R).
    change (kw_val movie_3x4 kw_low_mean 1)
      with (row_noise 4 (0, 1 # 4) "mean" [1; 0; 1; 0]%R).
    change (kw_val movie_3x4 kw_low_mean 2)
      with (row_noise 4 (0, 1 # 4) "mean" [1; 0; 1; 0]%R).
    rewrite row_noise_1010_low_mean. reflexivity.
  - destruct (get_noise_fft_parallel_run (fun l => l) module_globals
                movie_3x4 4 2 threading kw_low_mean wf_movie_3x4 HT Hhi
                ltac:(lia) ltac:(lia) (fun l => Permutation_refl l))
      as (st & E & Hs & _).
    exists st. split; [exact E |].
    assert (Hst : sn_s st = [Fin 0%R; Fin 0%R; Fin 1%R]);
      [| split; [exact Hst |];
         rewrite Hst,
           (serial_noise_movie module_globals movie_3x4 kw_low_mean
              wf_movie_3x4 HT Hhi);
         cbn [movie_3x4 m_rows length seq map];
         change (kw_val movie_3x4 kw_low_mean 2)
           with (row_noise 4 (0, 1 # 4) "mean" [1; 0; 1; 0]%R);
         rewrite row_noise_1010_low_mean;
         intros Habs; inversion Habs; lra].
    rewrite Hs.
    cbn [movie_3x4 m_rows length seq map].
    change (parallel_val movie_3x4 kw_low_mean 3
              (Z.to_nat (Z.of_nat 3 mod 2)) 0)
      with (row_noise 4 (0, 1 # 4) "mean" [1; 0; 1; 0]%R).
    change (parallel_val movie_3x4 kw_low_mean 3
              (Z.to_nat (Z.of_nat 3 mod 2)) 1)
      with (row_noise 4 (0, 1 # 4) "mean" [1; 0; 1; 0]%R).
    change (parallel_val movie_3x4 kw_low_mean 3
              (Z.to_nat (Z.of_nat 3 mod 2)) 2)
      with (row_noise 4 default_noise_range default_noise_method
              [1; 0; 1; 0]%R).
    rewrite row_noise_1010_low_mean, row_noise_1010_default. reflexivity.
Qed.

(** ** [estimate_time_constant] and [axcov] as the module binds its names *)

(** C5. Whatever the movie, the noise vector and the other arguments,
    [estimate_time_constant] called with [p=None] raises: the check comes
    first, and the order has no usable default. *)
Theorem estimate_time_constant_requires_p
  (pinv : matrix -> result matrix) (g : namespace) (Y : movie)
  (sn : list fval) (lags : Z) (include_noise : bool)
  (pixels : option (list Z)) :
  estimate_time_constant pinv g Y sn None lags include_noise pixels
  = Raise (Exception "You need to define p") /\
  raises (estimate_time_constant pinv g Y sn None lags include_noise pixels).
Proof.
  split; [reflexivity |]. eexists. reflexivity.
Qed.

(** C6, evaluated on the module as written.  For every trace and every
    [maxlag], [axcov] raises [NameError]: the name [fft] is bound nowhere in
    the module, so no zero-lag entry is ever returned. *)
Theorem axcov_fft_unbound (a : list R) (maxlag : Z) :
  axcov module_globals (Trace a) maxlag = Raise (NameError "fft") /\
  ~ returns (axcov module_globals (Trace a) maxlag).
Proof.
  split; [reflexivity |]. intros [v Hv]. discriminate.
Qed.

(** C7, evaluated on the spec's scenario.  For the sixteen-sample trace and
    [maxlag = 3], [axcov] returns no sequence of length 7: it raises
    [NameError]. *)
Theorem axcov_scenario_raises :
  axcov module_globals (Trace trace_16) 3 = Raise (NameError "fft") /\
  ~ (exists v, axcov module_globals (Trace trace_16) 3 = Ok v /\
               length v = 7%nat).
Proof.
  split; [reflexivity |]. intros (v & Hv & _). discriminate.
Qed.

(** C9, evaluated on the module as written.  For every two-pixel movie with
    at least two samples, and [p=2, lags=5, include_noise=False], the fitter
    raises [NameError] at the autocovariance of the first pixel, whatever the
    pseudo-inverse routine. *)
Theorem estimate_time_constant_two_pixels_raises
  (pinv : matrix -> result matrix) (Y : movie) (sn : list fval) :
  wf_movie Y -> length (m_rows Y) = 2%nat -> (2 <= m_T Y)%nat ->
  estimate_time_constant pinv module_globals Y sn (Some 2%Z) 5 false None
  = Raise (NameError "fft").
Proof.
  intros Hwf HN HT.
  destruct Y as [T rows]. simpl in *.
  destruct rows as [| r0 [| r1 [| r2 rows]]]; simpl in HN; try discriminate.
  inversion Hwf as [| ? ? Hr0 _]; subst. simpl in Hr0.
  unfold estimate_time_constant, n_pixels. cbn [m_rows m_T length].
  unfold py_floordiv.
  destruct (Z.eqb_spec (Z.of_nat T) 0) as [E | _]; [lia |].
  rewrite Z.div_mul by lia. simpl bind.
  cbn [py_range1 Z.sub Z.to_nat Pos.to_nat Pos.iter_op Nat.add seq map length
       Z.of_nat].
  unfold np_zeros2. simpl bind. cbn [foldM bind].
  unfold get_item at 1. cbn [length norm_index].
  simpl bind.
  unfold get_item at 1. simpl bind.
  destruct r0 as [| x0 [| x1 r0]]; simpl in Hr0; try lia.
  reflexivity.
Qed.

Lemma estimate_time_constant_two_pixels_raises_witness :
  estimate_time_constant transpose_as_pinv module_globals movie_2x16
    [Fin 1%R; Fin 1%R] (Some 2%Z) 5 false None
  = Raise (NameError "fft").
Proof.
  apply (estimate_time_constant_two_pixels_raises transpose_as_pinv
           movie_2x16 [Fin 1%R; Fin 1%R]).
  - repeat constructor.
  - reflexivity.
  - simpl. lia.
Defined.

(** ** [nextpow2] *)

Lemma nextpow2_loop_bound avalue exponent :
  (avalue <= 2 ^ Z.of_nat (nextpow2_loop avalue exponent))%Z.
Proof.
  funelim (nextpow2_loop avalue exponent).
  - assumption.
  - lia.
Qed.

Lemma nextpow2_loop_ge avalue exponent :
  (exponent <= nextpow2_loop avalue exponent)%nat.
Proof.
  funelim (nextpow2_loop avalue exponent); lia.
Qed.

(** The loop stops at the first exponent that is large enough. *)
Lemma nextpow2_loop_least avalue exponent e :
  (exponent <= e < nextpow2_loop avalue exponent)%nat ->
  (2 ^ Z.of_nat e < avalue)%Z.
Proof.
  funelim (nextpow2_loop avalue exponent); intros He.
  - destruct (Nat.eq_dec e exponent) as [-> | Hne]; [lia |].
    apply H. lia.
  - lia.
Qed.

(** [2 ** nextpow2(value) >= abs(value)], as the docstring says. *)
Lemma nextpow2_bound value : (Z.abs value <= 2 ^ nextpow2 value)%Z.
Proof.
  unfold nextpow2. apply nextpow2_loop_bound.
Qed.

Lemma fft_size_ge T : (1 <= T)%nat -> (2 * T - 1 <= fft_size T)%nat.
Proof.
  intros HT. unfold fft_size.
  pose proof (nextpow2_bound (2 * Z.of_nat T - 1)) as H.
  lia.
Qed.

(** ** [axcov] with the transforms of [numpy.fft] bound *)

Lemma take_idxs_block {A : Type} (l : list A) d i c :
  (i + c <= length l)%nat ->
  take_idxs l (py_range1 (Z.of_nat i) (Z.of_nat i + Z.of_nat c))
  = Ok (map (fun k => nth k l d) (seq i c)).
Proof.
  intros H. unfold take_idxs. rewrite py_range1_of_nat.
  apply mapM_map_ok. intros k Hk. apply in_seq in Hk.
  apply get_item_of_nat. lia.
Qed.

Lemma np_fft_ifft_ok (l : list R) : l <> [] ->
  np_fft_ifft l
  = Ok (map (fun j => Cscal (/ INR (length l)) (dft_coef 1 l (length l) j))
            (seq 0 (length l))).
Proof.
  intros H. destruct l; [congruence | reflexivity].
Qed.

Lemma fdiv_R_nonzero x d : d <> 0%R -> fdiv_R x d = Fin (x / d).
Proof.
  intros H. unfold fdiv_R. destruct (Req_dec_T d 0); [contradiction |].
  reflexivity.
Qed.

Lemma demean_length a : length (demean a) = length a.
Proof. unfold demean. apply length_map. Qed.

Lemma fft_size_pow T :
  (2 ^ nextpow2 (2 * Z.of_nat T - 1))%Z = Z.of_nat (fft_size T).
Proof.
  unfold fft_size. rewrite Z2Nat.id; [reflexivity |].
  apply Z.pow_nonneg. lia.
Qed.

Lemma fft_size_pos T : (1 <= fft_size T)%nat.
Proof.
  unfold fft_size.
  assert (0 < 2 ^ nextpow2 (2 * Z.of_nat T - 1))%Z.
  { apply Z.pow_pos_nonneg; [lia |]. unfold nextpow2. lia. }
  lia.
Qed.

(** With [fft] and [ifft] bound to NumPy's transforms, a call within the
    precondition [0 <= maxlag < T] returns the negative-lag tail and the
    non-negative-lag head of the inverse transform, divided by [T]. *)
Lemma axcov_numpy a maxlag :
  let T := length a in
  let n := fft_size T in
  let m := Z.to_nat maxlag in
  (0 <= maxlag < Z.of_nat T)%Z ->
  axcov numpy_fft_globals (Trace a) maxlag
  = Ok (map (fun j => Fin (xcov_re (demean a) n j / INR T)%R)
            (seq (n - m) m ++ seq 0 (m + 1))).
Proof.
  intros T n m Hm.
  assert (HT : (1 <= T)%nat) by lia.
  pose proof (fft_size_ge T HT) as Hn. fold n in Hn.
  pose proof (fft_size_pos T) as Hn1. fold n in Hn1.
  unfold axcov. cbv zeta.
  cbn [lookup bind numpy_fft_globals g_fft g_ifft].
  rewrite !demean_length. fold T.
  rewrite fft_size_pow. fold n.
  unfold np_fft_fft.
  destruct (Z.ltb_spec (Z.of_nat n) 1) as [H | _]; [lia |].
  rewrite Nat2Z.id. cbn [bind].
  rewrite np_fft_ifft_ok.
  2:{ destruct n; [lia |]. simpl. discriminate. }
  cbn [bind].
  rewrite !length_map, !length_seq.
  set (xcov := map _ (seq 0 n)).
  assert (Hlen : length xcov = n).
  { unfold xcov. rewrite length_map, length_seq. reflexivity. }
  replace (Z.of_nat n - maxlag)%Z with (Z.of_nat (n - m)) by lia.
  replace (Z.of_nat n) with (Z.of_nat (n - m) + Z.of_nat m)%Z at 1 by lia.
  rewrite (@take_idxs_block C xcov (0%R, 0%R) (n - m) m) by lia.
  cbn [bind].
  pose proof (@take_idxs_block C xcov (0%R, 0%R) 0 (m + 1) ltac:(lia)) as Hpos.
  change (Z.of_nat 0) with 0%Z in Hpos.
  replace (0 + Z.of_nat (m + 1))%Z with (maxlag + 1)%Z in Hpos by lia.
  rewrite Hpos.
  cbn [bind]. f_equal.
  rewrite <- map_app, map_map.
  apply map_ext_in. intros j Hj.
  assert (Hjn : (j < n)%nat).
  { apply in_app_or in Hj. destruct Hj as [Hj | Hj]; apply in_seq in Hj; lia. }
  rewrite fdiv_R_nonzero.
  2:{ apply not_0_INR. lia. }
  f_equal. f_equal. unfold xcov.
  rewrite nth_map_lt with (d' := 0%nat) by (rewrite length_seq; exact Hjn).
  rewrite seq_nth by exact Hjn. reflexivity.
Qed.

(** ** The inverse transform of the squared magnitudes *)

Open Scope R_scope.

Lemma Rsum_const c n : Rsum (fun _ => c) n = INR n * c.
Proof.
  induction n as [| n IH].
  - unfold Rsum. simpl. lra.
  - rewrite Rsum_S, IH, S_INR. lra.
Qed.

Lemma Rsum_swap (f : nat -> nat -> R) n m :
  Rsum (fun i => Rsum (fun j => f i j) m) n
  = Rsum (fun j => Rsum (fun i => f i j) n) m.
Proof.
  induction n as [| n IH].
  - change (Rsum (fun i => Rsum (fun j => f i j) m) 0) with 0.
    rewrite (Rsum_ext_lt _ (fun _ => 0)); [rewrite Rsum_zero; reflexivity |].
    intros j _. reflexivity.
  - rewrite Rsum_S, IH, <- Rsum_plus.
    apply Rsum_ext_lt. intros j _. rewrite Rsum_S. reflexivity.
Qed.

Lemma Rsum_sqr (f : nat -> R) n :
  Rsum f n * Rsum f n = Rsum (fun j => Rsum (fun l => f j * f l) n) n.
Proof.
  symmetry.
  rewrite (Rsum_ext_lt _ (fun j => Rsum f n * f j)).
  - apply Rsum_scal.
  - intros j _. rewrite Rsum_scal. ring.
Qed.

Lemma Rsum_extend f T n : (T <= n)%nat ->
  (forall j, (T <= j < n)%nat -> f j = 0) -> Rsum f n = Rsum f T.
Proof.
  intros HTn. induction n as [| n IH]; intros Hz.
  - replace T with 0%nat by lia. reflexivity.
  - destruct (Nat.eq_dec T (S n)) as [-> | Hne]; [reflexivity |].
    rewrite Rsum_S, IH, Hz by (try intros; try apply Hz; lia). lra.
Qed.

(** Orthogonality of the characters of the cyclic group of order [n]. *)
Lemma cos_difference_sum n j l : (j < n)%nat -> (l < n)%nat ->
  Rsum (fun m => cos ((INR j - INR l) * (2 * PI * INR m / INR n))) n
  = if Nat.eqb j l then INR n else 0.
Proof.
  intros Hj Hl.
  assert (Hn : 0 < INR n) by (apply lt_0_INR; lia).
  destruct (Nat.eqb_spec j l) as [-> | Hne].
  - rewrite (Rsum_ext_lt _ (fun _ => 1)).
    + rewrite Rsum_const. lra.
    + intros m _. replace ((INR l - INR l) * (2 * PI * INR m / INR n)) with 0
        by lra. apply cos_0.
  - destruct (Nat.lt_ge_cases l j) as [Hlt | Hge].
    + rewrite <- (cos_roots_sum n (j - l)) by lia.
      apply Rsum_ext_lt. intros m _. f_equal.
      rewrite minus_INR by lia. field. lra.
    + rewrite <- (cos_roots_sum n (l - j)) by lia.
      apply Rsum_ext_lt. intros m _.
      rewrite <- cos_neg. f_equal.
      rewrite minus_INR by lia. field. lra.
Qed.

(** The squared magnitude of coefficient [m] of the forward transform, as a
    double sum over the samples. *)
Lemma dft_power d n m :
  Cabs (dft_coef (-1) d n m) ^ 2
  = Rsum (fun j => Rsum (fun l =>
      nth j d 0 * nth l d 0
      * cos ((INR j - INR l) * (2 * PI * INR m / INR n))) n) n.
Proof.
  rewrite Cabs_sqr. unfold dft_coef.
  rewrite Csum_fst, Csum_snd. unfold Cscal, cis. cbn [fst snd].
  rewrite !Rsum_sqr, <- Rsum_plus.
  apply Rsum_ext_lt. intros j _. rewrite <- Rsum_plus.
  apply Rsum_ext_lt. intros l _.
  replace ((INR j - INR l) * (2 * PI * INR m / INR n))
    with (-1 * (2 * PI * INR l * INR m / INR n)
          - -1 * (2 * PI * INR j * INR m / INR n)).
  - rewrite cos_minus. ring.
  - unfold Rdiv. ring.
Qed.

(** Parseval: the powers of the [n] coefficients add up to [n] times the
    energy of the samples. *)
Lemma dft_energy d n : (length d <= n)%nat ->
  Rsum (fun m => Cabs (dft_coef (-1) d n m) ^ 2) n
  = INR n * Rsum (fun j => nth j d 0 ^ 2) (length d).
Proof.
  intros Hlen.
  rewrite (Rsum_ext_lt _ _ n (fun m _ => dft_power d n m)).
  rewrite Rsum_swap.
  rewrite (Rsum_ext_lt _ (fun j => INR n * nth j d 0 ^ 2)).
  - rewrite Rsum_scal. f_equal.
    apply Rsum_extend; [exact Hlen |].
    intros j Hj. rewrite nth_overflow by lia. ring.
  - intros j Hj. rewrite Rsum_swap.
    rewrite (Rsum_ext_lt _ (fun l => nth j d 0 * nth l d 0
                                     * (if Nat.eqb j l then INR n else 0))).
    + rewrite (Rsum_ext_lt _ (fun l => if Nat.eqb l j
                                       then INR n * nth j d 0 ^ 2 else 0)).
      * clear Hlen. revert Hj. generalize (INR n * nth j d 0 ^ 2) as c.
        intros c. induction n as [| n IH]; intros Hj; [lia |].
        rewrite Rsum_S.
        destruct (Nat.eqb_spec n j) as [-> | Hne].
        -- rewrite (Rsum_ext_lt _ (fun _ => 0)).
           ++ rewrite Rsum_zero. lra.
           ++ intros l Hl. destruct (Nat.eqb_spec l j); [lia | reflexivity].
        -- rewrite IH by lia. lra.
      * intros l _. rewrite (Nat.eqb_sym l j).
        destruct (Nat.eqb j l) eqn:E.
        -- apply Nat.eqb_eq in E. subst l. ring.
        -- ring.
    + intros l Hl. rewrite Rsum_scal.
      rewrite cos_difference_sum by assumption. reflexivity.
Qed.

Close Scope R_scope.

Open Scope R_scope.

Lemma xcov_re_sum d n j :
  xcov_re d n j
  = / INR n * Rsum (fun m => Cabs (dft_coef (-1) d n m) ^ 2
                             * cos (2 * PI * INR m * INR j / INR n)) n.
Proof.
  unfold xcov_re, Cre, Cscal. cbn [fst]. f_equal.
  unfold dft_coef at 1. rewrite Csum_fst.
  apply Rsum_ext_lt. intros m Hm. unfold Cscal, cis. cbn [fst].
  rewrite nth_map_lt with (d' := (0, 0))
    by (rewrite length_map, length_seq; exact Hm).
  rewrite nth_map_lt with (d' := 0%nat) by (rewrite length_seq; exact Hm).
  rewrite seq_nth by exact Hm. cbn [Nat.add].
  rewrite Rmult_1_l. reflexivity.
Qed.

(** The inverse transform of a real sequence is conjugate-symmetric, so its
    real part reads the same from both ends. *)
Lemma xcov_re_sym d n k : (k <= n)%nat -> n <> 0%nat ->
  xcov_re d n (n - k) = xcov_re d n k.
Proof.
  intros Hk Hn.
  assert (Hn' : 0 < INR n) by (apply lt_0_INR; lia).
  rewrite !xcov_re_sum. f_equal.
  apply Rsum_ext_lt. intros m _. f_equal.
  rewrite minus_INR by exact Hk.
  replace (2 * PI * INR m * (INR n - INR k) / INR n)
    with (- (2 * PI * INR m * INR k / INR n) + 2 * INR m * PI)
    by (field; lra).
  rewrite cos_period, cos_neg. reflexivity.
Qed.

(** Wiener-Khinchin at lag zero: the first entry is the energy. *)
Lemma xcov_re_zero d n : (length d <= n)%nat -> n <> 0%nat ->
  xcov_re d n 0 = Rsum (fun j => nth j d 0 ^ 2) (length d).
Proof.
  intros Hlen Hn.
  assert (Hn' : 0 < INR n) by (apply lt_0_INR; lia).
  rewrite xcov_re_sum.
  rewrite (Rsum_ext_lt _ (fun m => Cabs (dft_coef (-1) d n m) ^ 2)).
  - rewrite dft_energy by exact Hlen. field. lra.
  - intros m _. simpl INR.
    replace (2 * PI * INR m * 0 / INR n) with 0 by (field; lra).
    rewrite cos_0. ring.
Qed.

Close Scope R_scope.

(** With NumPy's transforms bound to [fft] and [ifft], [axcov] does what
    C6 and C7 say: within [0 <= maxlag < T] it returns [2 * maxlag + 1]
    values, symmetric about the middle one, which is the sample variance. *)
Lemma axcov_numpy_symmetric_variance (a : list R) (maxlag : Z) :
  (0 <= maxlag < Z.of_nat (length a))%Z ->
  let m := Z.to_nat maxlag in
  exists v,
    axcov numpy_fft_globals (Trace a) maxlag = Ok v /\
    length v = (2 * m + 1)%nat /\
    (forall k, (k <= m)%nat -> nth (m - k) v NaN = nth (m + k) v NaN) /\
    nth m v NaN = Fin (sample_variance a).
Proof.
  intros Hm m.
  set (T := length a). set (n := fft_size T).
  assert (HT : (1 <= T)%nat) by (unfold T; lia).
  pose proof (fft_size_ge T HT) as Hn. fold n in Hn.
  assert (Hmn : (m < n)%nat) by (unfold m, T in *; lia).
  set (F := fun j => Fin (xcov_re (demean a) n j / INR T)%R).
  exists (map F (seq (n - m) m ++ seq 0 (m + 1))).
  split; [apply axcov_numpy; exact Hm |].
  split; [rewrite length_map, length_app, !length_seq; lia |].
  assert (Hnth_pos : forall k, (k <= m)%nat ->
            nth (m + k) (map F (seq (n - m) m ++ seq 0 (m + 1))) NaN = F k).
  { intros k Hk.
    rewrite nth_map_lt with (d' := 0%nat)
      by (rewrite length_app, !length_seq; lia).
    rewrite app_nth2 by (rewrite length_seq; lia).
    rewrite length_seq, seq_nth by lia. f_equal. lia. }
  split.
  - intros k Hk. rewrite Hnth_pos by exact Hk.
    destruct k as [| k].
    + rewrite Nat.sub_0_r. rewrite <- (Hnth_pos 0%nat) by lia.
      f_equal. lia.
    + rewrite nth_map_lt with (d' := 0%nat)
        by (rewrite length_app, !length_seq; lia).
      rewrite app_nth1 by (rewrite length_seq; lia).
      rewrite seq_nth by lia.
      replace (n - m + (m - S k))%nat with (n - S k)%nat by lia.
      unfold F. rewrite xcov_re_sym by lia. reflexivity.
  - replace m with (m + 0)%nat at 1 by lia.
    rewrite Hnth_pos by lia. unfold F. f_equal.
    rewrite xcov_re_zero by (try rewrite demean_length; fold T; lia).
    rewrite demean_length. fold T. unfold sample_variance. fold T.
    f_equal. apply Rsum_ext_lt. intros j Hj.
    unfold demean.
    rewrite nth_map_lt with (d' := 0%R) by exact Hj. reflexivity.
Qed.

(** ** [estimate_time_constant] with the transforms of [numpy.fft] bound *)

Lemma length_15 {A : Type} (v : list A) : length v = 15%nat ->
  exists x0 x1 x2 x3 x4 x5 x6 x7 x8 x9 x10 x11 x12 x13 x14,
    v = [x0; x1; x2; x3; x4; x5; x6; x7; x8; x9; x10; x11; x12; x13; x14].
Proof.
  intros H.
  do 15 (destruct v as [| ? v]; [discriminate H |]).
  destruct v; [| discriminate H].
  repeat eexists.
Qed.

(** With [fft] and [ifft] bound, and a pseudo-inverse that returns a matrix
    of the transposed shape, the scenario of C9 goes through: for two pixels,
    [p=2], [lags=5], no noise term and traces longer than [lags + p], the
    fitter returns a vector of length [p = 2]. *)
Lemma estimate_time_constant_numpy_two_pixels
  (pinv : matrix -> result matrix) (Y : movie) (sn : list fval) :
  (forall M, exists M', pinv M = Ok M' /\
                        length (mat_rows M') = mat_cols M /\
                        mat_cols M' = length (mat_rows M)) ->
  wf_movie Y -> length (m_rows Y) = 2%nat -> (8 <= m_T Y)%nat ->
  exists gvec,
    estimate_time_constant pinv numpy_fft_globals Y sn (Some 2%Z) 5 false None
    = Ok gvec /\ length gvec = 2%nat.
Proof.
  intros Hpinv Hwf HN HT.
  destruct Y as [T rows]. simpl in *.
  destruct rows as [| r0 [| r1 [| r2 rows]]]; simpl in HN; try discriminate.
  inversion Hwf as [| ? ? Hr0 Hwf1]; subst.
  inversion Hwf1 as [| ? ? Hr1 _]; subst. simpl in Hr0, Hr1.
  destruct (axcov_numpy_symmetric_variance r0 7 ltac:(lia))
    as (v0 & E0 & L0 & _).
  destruct (axcov_numpy_symmetric_variance r1 7 ltac:(lia))
    as (v1 & E1 & L1 & _).
  simpl in L0, L1.
  destruct (length_15 v0 L0)
    as (a0 & a1 & a2 & a3 & a4 & a5 & a6 & a7 & a8 & a9 & a10 & a11 & a12
        & a13 & a14 & ->).
  destruct (length_15 v1 L1)
    as (b0 & b1 & b2 & b3 & b4 & b5 & b6 & b7 & b8 & b9 & b10 & b11 & b12
        & b13 & b14 & ->).
  assert (S0 : np_squeeze r0 = Trace r0).
  { destruct r0 as [| x [| y r0]]; simpl in Hr0; try lia; reflexivity. }
  assert (S1 : np_squeeze r1 = Trace r1).
  { destruct r1 as [| x [| y r1]]; simpl in Hr0, Hr1; try lia; reflexivity. }
  unfold estimate_time_constant, n_pixels. cbn [m_rows m_T length].
  unfold py_floordiv.
  destruct (Z.eqb_spec (Z.of_nat T) 0) as [E | _]; [lia |].
  rewrite Z.div_mul by lia. cbn [bind].
  change (py_range1 0 (Z.of_nat 2)) with [0%Z; 1%Z].
  cbn [length]. change (Z.of_nat 2) with 2%Z.
  change (5 + 2)%Z with 7%Z.
  change (np_zeros2 2 (2 * 7 + 1))
    with (Ok {| mat_cols := 15;
                mat_rows := repeat (repeat (Fin 0%R) 15) 2 |}).
  cbn [bind]. change (py_range1 0 2) with [0%Z; 1%Z].
  cbn [foldM bind].
  change (get_item [0%Z; 1%Z] 0) with (Ok 0%Z).
  cbn [bind]. change (get_item [r0; r1] 0) with (Ok r0).
  cbn [bind]. rewrite S0, E0.
  cbv -[axcov numpy_fft_globals np_squeeze np_dot IZR].
  rewrite S1, E1.
  cbv -[axcov numpy_fft_globals np_squeeze np_dot IZR].
  match goal with
  | |- context [pinv ?A] =>
    destruct (Hpinv A) as (Ainv & EA & Hrows & Hcols); rewrite EA
  end.
  cbn [mat_cols mat_rows length] in Hrows, Hcols.
  unfold np_dot. rewrite Hcols. cbn [length Nat.eqb].
  eexists. split; [reflexivity |].
  fold (@length fval). rewrite length_map. exact Hrows.
Qed.

(** * Further properties of the module *)

(** ** [nextpow2] *)



Lemma nextpow2_5 : nextpow2 5 = 3%Z.
Proof.
  unfold nextpow2. f_equal.
  assert (H3 : (3 <= nextpow2_loop (Z.abs 5) 0)%nat).
  { destruct (Nat.lt_ge_cases (nextpow2_loop (Z.abs 5) 0) 3) as [Hlt | Hge];
      [| exact Hge].
    pose proof (nextpow2_loop_bound (Z.abs 5) 0) as Hb.
    exfalso.
    assert (Hp : (2 ^ Z.of_nat (nextpow2_loop (Z.abs 5) 0) <= 2 ^ 2)%Z)
      by (apply Z.pow_le_mono_r; lia).
    simpl Z.abs in *. lia. }
  destruct (Nat.lt_ge_cases 3 (nextpow2_loop (Z.abs 5) 0)) as [Hlt | Hge];
    [| lia].
  pose proof (nextpow2_loop_least (Z.abs 5) 0 3 ltac:(lia)) as Hl.
  simpl in Hl. lia.
Qed.


(** X3. The transform that [axcov] takes of a trace of [T >= 1] samples has
    a power of two as its length, at least [2T - 1] (so that lags below [T]
    do not wrap around) and less than twice that. *)
Theorem fft_size_bounds (T : nat) :
  (1 <= T)%nat ->
  Z.of_nat (fft_size T) = (2 ^ nextpow2 (2 * Z.of_nat T - 1))%Z /\
  (2 * T - 1 <= fft_size T < 2 * (2 * T - 1))%nat.
Proof.
  intros HT. split; [symmetry; apply fft_size_pow |].
  split; [apply fft_size_ge; exact HT |].
  pose proof (fft_size_pow T) as Hpow.
  set (v := (2 * Z.of_nat T - 1)%Z) in *.
  assert (Hv : (1 <= v)%Z) by (unfold v; lia).
  destruct (Z.eq_dec (nextpow2 v) 0) as [E0 | Hne].
  - rewrite E0 in Hpow. simpl in Hpow. lia.
  - assert (He : (0 <= nextpow2 v - 1 < nextpow2 v)%Z).
    { unfold nextpow2 in *. lia. }
    pose proof (nextpow2_loop_least (Z.abs v) 0
                  (Z.to_nat (nextpow2 v - 1))) as Hl.
    unfold nextpow2 in Hl at 2.
    specialize (Hl ltac:(unfold nextpow2 in *; lia)).
    rewrite Z2Nat.id in Hl by lia.
    replace (nextpow2 v) with (Z.succ (nextpow2 v - 1)) in Hpow by lia.
    rewrite Z.pow_succ_r in Hpow by lia.
    rewrite Z.abs_eq in Hl by lia. unfold v in *. lia.
Qed.

Lemma fft_size_bounds_witness :
  (2 * 3 - 1 <= fft_size 3 < 2 * (2 * 3 - 1))%nat.
Proof.
  apply (fft_size_bounds 3). lia.
Defined.

(** ** [get_noise_fft] *)

(** X4. On a one-dimensional trace [get_noise_fft] never returns: an empty
    trace divides by zero, and otherwise the branch looks up the unbound name
    [rfft]; were the name bound, [np.fliplr] would still reject the
    one-dimensional transform. *)
Theorem get_noise_fft_trace_never_returns (g : namespace) (a : list R)
  (r : Q * Q) (method : string) :
  ~ returns (get_noise_fft g (Arr1 a) r method) /\
  get_noise_fft module_globals (Arr1 a) r method
  = match a with
    | [] => Raise ZeroDivisionError
    | _ :: _ => Raise (NameError "rfft")
    end.
Proof.
  split.
  - intros [v Hv]. unfold get_noise_fft in Hv. simpl shape_last in Hv.
    destruct (Nat.eqb (length a) 0); [discriminate |].
    destruct (g_rfft g) as [rfft |]; simpl in Hv; [| discriminate].
    destruct (rfft a); simpl in Hv; discriminate.
  - destruct a; reflexivity.
Qed.

(** X5. The estimate is computed pixel by pixel: the noise vector of two
    stacked blocks of rows is the noise vector of the first followed by that
    of the second.  This is what lets the parallel estimator split a movie. *)
Theorem get_noise_fft_stacks (g : namespace) (T : nat)
  (rows1 rows2 : list (list R)) (r : Q * Q) (method : string) :
  wf_movie {| m_T := T; m_rows := rows1 ++ rows2 |} -> T <> 0%nat ->
  snd r <= 1 # 2 ->
  exists v1 v2,
    get_noise_fft g (Arr2 {| m_T := T; m_rows := rows1 |}) r method = Ok v1 /\
    get_noise_fft g (Arr2 {| m_T := T; m_rows := rows2 |}) r method = Ok v2 /\
    get_noise_fft g (Arr2 {| m_T := T; m_rows := rows1 ++ rows2 |}) r method
    = Ok (v1 ++ v2) /\
    length v1 = length rows1 /\ length v2 = length rows2.
Proof.
  intros Hwf HT Hhi.
  unfold wf_movie in Hwf. simpl in Hwf. apply Forall_app in Hwf.
  destruct Hwf as [Hwf1 Hwf2].
  assert (Hsel : forall k, In k (selected_bins T r) -> (k <= T / 2)%nat).
  { intros k Hk. eapply selected_bins_in_range; eassumption. }
  exists (map (row_noise T r method) rows1),
         (map (row_noise T r method) rows2).
  split; [| split; [| split; [| split]]].
  - apply (get_noise_fft_movie g {| m_T := T; m_rows := rows1 |});
      assumption.
  - apply (get_noise_fft_movie g {| m_T := T; m_rows := rows2 |});
      assumption.
  - rewrite <- map_app.
    apply (get_noise_fft_movie g {| m_T := T; m_rows := rows1 ++ rows2 |});
      try assumption.
    unfold wf_movie. simpl. apply Forall_app. split; assumption.
  - apply length_map.
  - apply length_map.
Qed.

Lemma get_noise_fft_stacks_witness :
  exists v1 v2,
    get_noise_fft module_globals
      (Arr2 {| m_T := 4; m_rows := [[1; 0; 1; 0]%R] |})
      default_noise_range "mean" = Ok v1 /\
    get_noise_fft module_globals
      (Arr2 {| m_T := 4; m_rows := [[3; 3; 3; 3]%R] |})
      default_noise_range "mean" = Ok v2 /\
    get_noise_fft module_globals
      (Arr2 {| m_T := 4; m_rows := [[1; 0; 1; 0]%R] ++ [[3; 3; 3; 3]%R] |})
      default_noise_range "mean" = Ok (v1 ++ v2).
Proof.
  destruct (get_noise_fft_stacks module_globals 4 [[1; 0; 1; 0]%R]
              [[3; 3; 3; 3]%R] default_noise_range "mean")
    as (v1 & v2 & H1 & H2 & H3 & _).
  - repeat constructor.
  - discriminate.
  - simpl. unfold Qle. simpl. lia.
  - exists v1, v2. repeat split; assumption.
Defined.

(** ** [mean_psd] *)

Open Scope R_scope.

Lemma fold_fadd_fin l a :
  fold_left fadd (map Fin l) (Fin a) = Fin (a + fold_right Rplus 0 l).
Proof.
  revert a. induction l as [| x l IH]; intros a; simpl.
  - f_equal. lra.
  - rewrite IH. f_equal. lra.
Qed.

Lemma np_mean_fin l : l <> [] ->
  np_mean (map Fin l) = Fin (fold_right Rplus 0 l / INR (length l)).
Proof.
  intros Hne. destruct l as [| x l]; [congruence |].
  unfold np_mean. cbn [map]. unfold fsum.
  change (Fin x :: map Fin l) with (map Fin (x :: l)).
  rewrite fold_fadd_fin, length_map. unfold fdiv_count.
  rewrite fdiv_R_nonzero.
  - f_equal. f_equal. lra.
  - apply not_0_INR. simpl. discriminate.
Qed.

Lemma sum_repeat x n : fold_right Rplus 0 (repeat x n) = INR n * x.
Proof.
  induction n as [| n IH].
  - simpl. lra.
  - cbn [repeat fold_right]. rewrite IH, S_INR. lra.
Qed.

Lemma Rinsert_all c l :
  Forall (eq c) l -> Forall (eq c) (Rinsert c l).
Proof.
  induction l as [| y l IH]; intros H; simpl.
  - repeat constructor.
  - inversion H; subst.
    destruct (Rle_dec y y); constructor; auto.
Qed.

Lemma Rsort_repeat c n : Forall (eq c) (Rsort (repeat c n)).
Proof.
  induction n as [| n IH]; simpl; [constructor |].
  apply Rinsert_all. exact IH.
Qed.

Lemma nth_all_eq (c : R) l k d : Forall (eq c) l -> (k < length l)%nat ->
  nth k l d = c.
Proof.
  intros H. revert k. induction H as [| x l Hx _ IH]; intros k Hk.
  - simpl in Hk. lia.
  - destruct k; simpl; [symmetry; exact Hx | apply IH; simpl in Hk; lia].
Qed.

Lemma Rsort_length l : length (Rsort l) = length l.
Proof.
  induction l as [| x l IH]; simpl; [reflexivity |].
  rewrite <- IH. generalize (Rsort l). intros s.
  induction s as [| y s IHs]; simpl; [reflexivity |].
  destruct (Rle_dec x y); simpl; [reflexivity |]. rewrite IHs. reflexivity.
Qed.

Lemma np_sqrt_nonneg x : 0 <= x -> np_sqrt (Fin x) = Fin (sqrt x).
Proof.
  intros Hx. unfold np_sqrt. destruct (Rlt_dec x 0); [lra | reflexivity].
Qed.

(** X6. On a flat band, every bin holding the same positive power [v], the
    three averaging methods agree: each returns [sqrt(v / 2)], and so does
    any other method name. *)
Theorem mean_psd_flat_band (v : R) (n : nat) (method : string) :
  0 < v -> (0 < n)%nat ->
  mean_psd_row (repeat v n) method = Fin (sqrt (v / 2)).
Proof.
  intros Hv Hn.
  assert (Hn' : 0 < INR n) by (apply lt_0_INR; exact Hn).
  unfold mean_psd_row. rewrite !map_repeat.
  destruct (String.eqb method "mean").
  - rewrite <- (map_repeat _ _ Fin), np_mean_fin
      by (destruct n; [lia | discriminate]).
    rewrite sum_repeat, repeat_length.
    replace (INR n * (v / 2) / INR n) with (v / 2) by (field; lra).
    apply np_sqrt_nonneg. lra.
  - destruct (String.eqb method "median").
    + unfold np_median. rewrite repeat_length.
      destruct n as [| n]; [lia |].
      assert (Hnth : forall k, (k < S n)%nat ->
                nth k (Rsort (repeat (v / 2) (S n))) 0 = v / 2).
      { intros k Hk. apply nth_all_eq; [apply Rsort_repeat |].
        rewrite Rsort_length, repeat_length. exact Hk. }
      assert (Hhalf : (S n / 2 < S n)%nat) by (apply Nat.div_lt; lia).
      destruct (Nat.even (S n)).
      * rewrite !Hnth by lia.
        replace ((v / 2 + v / 2) / 2) with (v / 2) by lra.
        apply np_sqrt_nonneg. lra.
      * rewrite Hnth by lia. apply np_sqrt_nonneg. lra.
    + unfold np_log. destruct (Rlt_dec 0 (v / 2)) as [_ | H]; [| lra].
      rewrite <- (map_repeat _ _ Fin), np_mean_fin
        by (destruct n; [lia | discriminate]).
      rewrite sum_repeat, repeat_length.
      replace (INR n * ln (v / 2) / INR n) with (ln (v / 2)) by (field; lra).
      cbn [np_exp]. rewrite exp_ln by lra.
      apply np_sqrt_nonneg. lra.
Qed.

Lemma mean_psd_flat_band_witness :
  mean_psd_row (repeat 8 3) "median" = Fin (sqrt (8 / 2)).
Proof.
  apply (mean_psd_flat_band 8 3 "median"); [lra | lia].
Defined.

Close Scope R_scope.

Open Scope R_scope.

Lemma fold_fadd_from_ninf l :
  Forall (fun a => a = NInf \/ exists x, a = Fin x) l ->
  fold_left fadd l NInf = NInf.
Proof.
  induction 1 as [| a l [-> | [x ->]] _ IH]; simpl; auto.
Qed.

Lemma fold_fadd_meets_ninf l a :
  Forall (fun a => a = NInf \/ exists x, a = Fin x) l -> In NInf l ->
  fold_left fadd l (Fin a) = NInf.
Proof.
  intros Hall. revert a.
  induction Hall as [| b l Hb Hall IH]; intros a Hin; [contradiction |].
  simpl. destruct Hb as [-> | [x ->]].
  - simpl. apply fold_fadd_from_ninf. exact Hall.
  - simpl. apply IH. destruct Hin as [Habs | Hin]; [discriminate | exact Hin].
Qed.

(** X7. One bin of exactly zero power among non-negative ones drives the
    log-mean-exp estimate to 0, whatever the other bins hold: its logarithm
    is minus infinity, and so is the mean of the logarithms. *)
Theorem mean_psd_logmexp_zero_bin (y : list R) (method : string) :
  method <> "mean"%string -> method <> "median"%string ->
  Forall (fun v => 0 <= v) y -> In 0 y ->
  mean_psd_row y method = Fin 0.
Proof.
  intros Hm1 Hm2 Hpos Hzero.
  rewrite mean_psd_row_other by assumption. unfold logmexp.
  set (logs := map (fun v => np_log (v / 2)) y).
  assert (Hall : Forall (fun a => a = NInf \/ exists x, a = Fin x) logs).
  { unfold logs. apply Forall_forall. intros a Ha.
    apply in_map_iff in Ha. destruct Ha as (v & <- & Hv).
    rewrite Forall_forall in Hpos. specialize (Hpos v Hv).
    unfold np_log. destruct (Rlt_dec 0 (v / 2)); [right; eauto |].
    destruct (Rlt_dec (v / 2) 0); [lra | left; reflexivity]. }
  assert (Hin : In NInf logs).
  { unfold logs. apply in_map_iff. exists 0. split; [| exact Hzero].
    replace (0 / 2) with 0 by lra. apply np_log_zero. }
  unfold np_mean. destruct logs as [| a logs'] eqn:E; [contradiction |].
  unfold fsum. rewrite fold_fadd_meets_ninf by assumption.
  simpl. apply np_sqrt_zero.
Qed.

Lemma mean_psd_logmexp_zero_bin_witness :
  mean_psd_row [4; 0; 9] "logmexp" = Fin 0.
Proof.
  apply (mean_psd_logmexp_zero_bin [4; 0; 9] "logmexp").
  - discriminate.
  - discriminate.
  - repeat constructor; lra.
  - right. left. reflexivity.
Defined.

(** The inequality of the arithmetic and geometric means, in the form
    the averaging needs. *)
Lemma sum_ln_tangent m l : 0 < m -> Forall (fun x => 0 < x) l ->
  fold_right Rplus 0 (map ln l)
  <= INR (length l) * ln m + fold_right Rplus 0 l / m - INR (length l).
Proof.
  intros Hm Hall. induction Hall as [| x l Hx _ IH].
  - simpl. lra.
  - cbn [map fold_right length]. rewrite S_INR.
    assert (Hx' : ln x <= ln m + x / m - 1).
    { pose proof (exp_ineq1_le (ln (x / m))) as H.
      assert (Hxm : 0 < x / m) by (apply Rdiv_lt_0_compat; assumption).
      rewrite exp_ln in H by exact Hxm.
      unfold Rdiv in H at 1.
      rewrite ln_mult, ln_Rinv in H;
        try assumption; [| apply Rinv_0_lt_compat; exact Hm].
      lra. }
    unfold Rdiv in *. lra.
Qed.

Lemma sum_pos l : l <> [] -> Forall (fun x => 0 < x) l ->
  0 < fold_right Rplus 0 l.
Proof.
  intros Hne Hall. destruct Hall as [| x l Hx Hall]; [congruence |].
  clear Hne. simpl.
  assert (0 <= fold_right Rplus 0 l).
  { induction Hall as [| z l Hz _ IH]; simpl; lra. }
  lra.
Qed.

Lemma exp_mean_ln_le_mean l : l <> [] -> Forall (fun x => 0 < x) l ->
  exp (fold_right Rplus 0 (map ln l) / INR (length l))
  <= fold_right Rplus 0 l / INR (length l).
Proof.
  intros Hne Hall.
  assert (Hn : 0 < INR (length l)).
  { apply lt_0_INR. destruct l; [congruence | simpl; lia]. }
  pose proof (sum_pos l Hne Hall) as Hs.
  set (m := fold_right Rplus 0 l / INR (length l)).
  assert (Hm : 0 < m) by (apply Rdiv_lt_0_compat; assumption).
  pose proof (sum_ln_tangent m l Hm Hall) as H.
  replace (fold_right Rplus 0 l / m) with (INR (length l)) in H
    by (unfold m; field; split; lra).
  assert (Hle : fold_right Rplus 0 (map ln l) / INR (length l) <= ln m).
  { apply Rmult_le_reg_r with (INR (length l)); [exact Hn |].
    unfold Rdiv. rewrite Rmult_assoc, Rinv_l by lra. lra. }
  apply Rle_trans with (exp (ln m)); [| rewrite exp_ln by exact Hm; lra].
  destruct Hle as [Hlt | ->]; [| lra].
  left. apply exp_increasing. exact Hlt.
Qed.

(** X8. On strictly positive power values the 'logmexp' estimate (a
    geometric mean) is a finite number that never exceeds the 'mean'
    estimate (an arithmetic mean). *)
Theorem mean_psd_logmexp_le_mean (y : list R) :
  y <> [] -> Forall (fun v => 0 < v) y ->
  exists a b,
    mean_psd_row y "logmexp" = Fin a /\ mean_psd_row y "mean" = Fin b /\
    0 <= a <= b.
Proof.
  intros Hne Hpos.
  set (h := map (fun v => v / 2) y).
  assert (Hh : Forall (fun x => 0 < x) h).
  { unfold h. apply Forall_forall. intros x Hx.
    apply in_map_iff in Hx. destruct Hx as (v & <- & Hv).
    rewrite Forall_forall in Hpos. specialize (Hpos v Hv). lra. }
  assert (Hhne : h <> []) by (unfold h; destruct y; [congruence | discriminate]).
  pose proof (exp_mean_ln_le_mean h Hhne Hh) as Hamgm.
  exists (sqrt (exp (fold_right Rplus 0 (map ln h) / INR (length h)))),
         (sqrt (fold_right Rplus 0 h / INR (length h))).
  split; [| split].
  - unfold mean_psd_row. cbn [String.eqb Ascii.eqb Bool.eqb].
    replace (map (fun v => np_log (v / 2)) y) with (map Fin (map ln h)).
    + rewrite np_mean_fin, length_map
        by (destruct h; [congruence | discriminate]).
      cbn [np_exp]. apply np_sqrt_nonneg. left. apply exp_pos.
    + unfold h. rewrite !map_map. apply map_ext_in. intros v Hv.
      rewrite Forall_forall in Hpos. specialize (Hpos v Hv).
      unfold np_log. destruct (Rlt_dec 0 (v / 2)); [reflexivity | lra].
  - unfold mean_psd_row. cbn [String.eqb Ascii.eqb Bool.eqb].
    replace (map (fun v => Fin (v / 2)) y) with (map Fin h)
      by (unfold h; rewrite map_map; reflexivity).
    rewrite np_mean_fin by exact Hhne.
    apply np_sqrt_nonneg. left.
    apply Rdiv_lt_0_compat; [apply sum_pos; assumption |].
    apply lt_0_INR. destruct h; [congruence | simpl; lia].
  - split; [apply sqrt_pos |].
    apply sqrt_le_1_alt. exact Hamgm.
Qed.

Lemma mean_psd_logmexp_le_mean_witness :
  exists a b,
    mean_psd_row [2; 8] "logmexp" = Fin a /\
    mean_psd_row [2; 8] "mean" = Fin b /\ 0 <= a <= b.
Proof.
  apply (mean_psd_logmexp_le_mean [2; 8]).
  - discriminate.
  - repeat constructor; lra.
Defined.

Close Scope R_scope.

(** ** [fft_psd_parallel] and [get_noise_fft_parallel] *)

Lemma nth_error_list_set_other {A : Type} (a : list A) k v j :
  j <> k -> nth_error (list_set a k v) j = nth_error a j.
Proof.
  revert k j. induction a as [| x a IH]; intros k j Hjk; simpl.
  - reflexivity.
  - destruct k as [| k]; destruct j as [| j]; simpl; try reflexivity.
    + congruence.
    + apply IH. congruence.
Qed.

Lemma fold_write1_frame kvs st j :
  ~ In j (map fst kvs) ->
  nth_error (sn_s (fold_left write1 kvs st)) j = nth_error (sn_s st) j.
Proof.
  revert st. induction kvs as [| kv kvs IH]; intros st Hj; simpl.
  - reflexivity.
  - rewrite IH by (intros H; apply Hj; right; exact H).
    unfold write1. simpl. apply nth_error_list_set_other.
    intros ->. apply Hj. left. reflexivity.
Qed.

(** X9. A block call that returns has changed nothing outside its block:
    the buffer keeps its length, and every entry at a position outside
    [i, i + num_pixels) is what it was. *)
Theorem fft_psd_parallel_frame (g : namespace) (Y : movie) (st st' : shared)
  (i n : Z) (kw : kwargs) (j : nat) :
  (0 <= i)%Z ->
  fft_psd_parallel g Y st i n kw = Ok st' ->
  ~ (i <= Z.of_nat j < i + n)%Z ->
  length (sn_s st') = length (sn_s st) /\
  nth_error (sn_s st') j = nth_error (sn_s st) j.
Proof.
  intros Hi Hrun Hj.
  split; [apply (fft_psd_parallel_written g Y st i n kw st' Hi Hrun) |].
  unfold fft_psd_parallel in Hrun.
  destruct (take_rows Y (py_range1 i (i + n))) as [Yi |]; simpl in Hrun;
    [| discriminate].
  destruct (get_noise_fft g (Arr2 Yi) (kw_range kw) (kw_method kw))
    as [res |]; simpl in Hrun; [| discriminate].
  unfold set_idxs in Hrun.
  destruct (mapM (norm_index (length (sn_s st))) (py_range1 i (i + n)))
    as [ks |] eqn:Eks; simpl in Hrun; [| discriminate].
  destruct (Nat.eqb_spec (length res) (length ks)) as [El | _];
    [| discriminate].
  inversion Hrun; subst st'; clear Hrun.
  apply mapM_norm_index_nonneg in Eks.
  - destruct Eks as [-> _]. apply fold_write1_frame.
    rewrite map_fst_combine by exact El.
    intros Hin. apply in_map_iff in Hin. destruct Hin as (z & Hz & Hzin).
    apply py_range1_In in Hzin. lia.
  - apply Forall_forall. intros z Hz. apply py_range1_In in Hz. lia.
Qed.

Lemma memmap_1x4_block :
  exists st',
    fft_psd_parallel module_globals movie_3x4 (memmap_new 3) 0 2 no_kwargs
    = Ok st'.
Proof.
  eexists.
  apply (fft_psd_parallel_block module_globals movie_3x4 (memmap_new 3) 0 2
           no_kwargs wf_movie_3x4).
  - discriminate.
  - simpl. unfold Qle. simpl. lia.
  - reflexivity.
  - simpl. lia.
Qed.

Lemma fft_psd_parallel_frame_witness :
  exists st',
    fft_psd_parallel module_globals movie_3x4 (memmap_new 3) 0 2 no_kwargs
    = Ok st' /\
    nth_error (sn_s st') 2 = nth_error (sn_s (memmap_new 3)) 2.
Proof.
  destruct memmap_1x4_block as [st' E].
  exists st'. split; [exact E |].
  apply (fft_psd_parallel_frame module_globals movie_3x4 (memmap_new 3) st'
           0 2 no_kwargs 2 ltac:(lia) E).
  simpl. lia.
Defined.



Lemma seq_split_at n k : (k <= n)%nat ->
  seq 0 n = seq 0 k ++ seq k (n - k).
Proof.
  intros H. replace n with (k + (n - k))%nat at 1 by lia.
  apply seq_app.
Qed.

Lemma firstn_map_seq {A : Type} (f : nat -> A) n k : (k <= n)%nat ->
  firstn k (map f (seq 0 n)) = map f (seq 0 k).
Proof.
  intros H. rewrite (seq_split_at n k H), map_app.
  rewrite firstn_app, length_map, length_seq, Nat.sub_diag.
  simpl firstn at 2. rewrite app_nil_r.
  apply firstn_all2. rewrite length_map, length_seq. lia.
Qed.

Lemma skipn_map_seq {A : Type} (f : nat -> A) n k : (k <= n)%nat ->
  skipn k (map f (seq 0 n)) = map f (seq k (n - k)).
Proof.
  intros H. rewrite (seq_split_at n k H), map_app.
  rewrite skipn_app, length_map, length_seq, Nat.sub_diag.
  simpl skipn at 2.
  rewrite skipn_all2 by (rewrite length_map, length_seq; lia).
  reflexivity.
Qed.



Lemma parallel_small_movie_defaults (schedule : list Z -> list Z)
  (g : namespace) (Y : movie) (k G : Z) (bk : backend) (kw : kwargs) :
  wf_movie Y -> m_T Y <> 0%nat -> snd (kw_range kw) <= 1 # 2 ->
  (n_pixels Y < G)%Z -> k <> 0%Z -> (forall l, Permutation (schedule l) l) ->
  exists st,
    get_noise_fft_parallel_sched schedule g Y k G bk kw = Ok st /\
    get_noise_fft g (Arr2 Y) default_noise_range default_noise_method
    = Ok (sn_s st).
Proof.
  intros Hwf HT Hhi HG Hk Hperm.
  unfold n_pixels in HG.
  destruct (get_noise_fft_parallel_run schedule g Y k G bk kw Hwf HT Hhi
              ltac:(lia) Hk Hperm) as (st & E & Hs & _).
  exists st. split; [exact E |].
  assert (Hdef : snd (kw_range no_kwargs) <= 1 # 2)
    by (simpl; unfold Qle; simpl; lia).
  pose proof (serial_noise_movie g Y no_kwargs Hwf HT Hdef) as Hser.
  unfold serial_noise in Hser.
  change (kw_range no_kwargs) with default_noise_range in Hser.
  change (kw_method no_kwargs) with default_noise_method in Hser.
  rewrite Hser. f_equal.
  rewrite Hs. apply map_ext_in. intros i Hi. apply in_seq in Hi.
  unfold parallel_val. rewrite Z.mod_small by lia. rewrite Nat2Z.id.
  rewrite Nat.sub_diag.
  destruct (Nat.ltb_spec i 0); [lia | reflexivity].
Qed.







(** ** The autocovariance at every lag *)

Open Scope R_scope.

Lemma Rsum_scal_r c f n : Rsum (fun j => f j * c) n = Rsum f n * c.
Proof.
  rewrite Rmult_comm, <- Rsum_scal.
  apply Rsum_ext_lt. intros j _. ring.
Qed.

Lemma Rsum_delta (f : nat -> R) c n :
  Rsum (fun l => if Nat.eqb l c then f l else 0) n
  = if Nat.ltb c n then f c else 0.
Proof.
  induction n as [| n IH]; [reflexivity |].
  rewrite Rsum_S, IH.
  destruct (Nat.eqb_spec n c) as [-> | Hne].
  - destruct (Nat.ltb_spec c c); [lia |].
    destruct (Nat.ltb_spec c (S c)); [lra | lia].
  - destruct (Nat.ltb_spec c n), (Nat.ltb_spec c (S n)); try lia; lra.
Qed.

Lemma cos_product_sum n j l k :
  (j + k < n)%nat -> (l + k < n)%nat ->
  Rsum (fun m => cos ((INR j - INR l) * (2 * PI * INR m / INR n))
                 * cos (2 * PI * INR m * INR k / INR n)) n
  = INR n / 2 * ((if Nat.eqb l (j + k) then 1 else 0)
                 + (if Nat.eqb j (l + k) then 1 else 0)).
Proof.
  intros Hj Hl.
  assert (Hn : 0 < INR n) by (apply lt_0_INR; lia).
  rewrite (Rsum_ext_lt _
    (fun m => / 2 * cos ((INR (j + k) - INR l) * (2 * PI * INR m / INR n))
              + / 2 * cos ((INR j - INR (l + k))
                           * (2 * PI * INR m / INR n)))).
  - rewrite Rsum_plus, !Rsum_scal.
    rewrite !cos_difference_sum by lia.
    rewrite (Nat.eqb_sym (j + k) l).
    destruct (Nat.eqb l (j + k)), (Nat.eqb j (l + k)); lra.
  - intros m _. rewrite !plus_INR.
    replace ((INR j + INR k - INR l) * (2 * PI * INR m / INR n))
      with ((INR j - INR l) * (2 * PI * INR m / INR n)
            + 2 * PI * INR m * INR k / INR n) by (field; lra).
    replace ((INR j - (INR l + INR k)) * (2 * PI * INR m / INR n))
      with ((INR j - INR l) * (2 * PI * INR m / INR n)
            - 2 * PI * INR m * INR k / INR n) by (field; lra).
    rewrite cos_plus, cos_minus. lra.
Qed.

(** Wiener-Khinchin: with enough zero padding, the transform of the power
    spectrum at lag [k] is [n] times the lagged product sum. *)
Lemma dft_lag_sum d n k :
  (2 * length d - 1 <= n)%nat -> (k < length d)%nat ->
  Rsum (fun m => Cabs (dft_coef (-1) d n m) ^ 2
                 * cos (2 * PI * INR m * INR k / INR n)) n
  = INR n * lag_sum d k.
Proof.
  intros Hn Hk.
  set (T := length d) in *.
  set (x := fun j => nth j d 0).
  assert (Hx : forall j, (T <= j)%nat -> x j = 0).
  { intros j Hj. unfold x. apply nth_overflow. exact Hj. }
  (* expand the power and bring the sum over [m] inside *)
  rewrite (Rsum_ext_lt _
    (fun m => Rsum (fun j => Rsum (fun l =>
       x j * x l
       * (cos ((INR j - INR l) * (2 * PI * INR m / INR n))
          * cos (2 * PI * INR m * INR k / INR n))) n) n)).
  2:{ intros m _. rewrite dft_power, <- Rsum_scal_r.
      apply Rsum_ext_lt. intros j _. rewrite <- Rsum_scal_r.
      apply Rsum_ext_lt. intros l _. unfold x. ring. }
  rewrite Rsum_swap.
  rewrite (Rsum_ext_lt _
    (fun j => INR n / 2 * (x j * x (j + k)%nat)
              + INR n / 2 * Rsum (fun l => if Nat.eqb j (l + k)
                                           then x j * x l else 0) n)).
  2:{ intros j Hj. rewrite Rsum_swap.
      rewrite (Rsum_ext_lt _
        (fun l => INR n / 2 * (if Nat.eqb l (j + k) then x j * x l else 0)
                  + INR n / 2 * (if Nat.eqb j (l + k)
                                 then x j * x l else 0))).
      - rewrite Rsum_plus, !Rsum_scal. f_equal. f_equal.
        rewrite (Rsum_delta (fun l => x j * x l) (j + k) n).
        destruct (Nat.ltb_spec (j + k) n) as [_ | Hge]; [reflexivity |].
        rewrite (Hx (j + k)%nat) by (unfold T in *; lia). ring.
      - intros l Hl. rewrite Rsum_scal.
        destruct (Nat.lt_ge_cases j T) as [HjT | HjT].
        + destruct (Nat.lt_ge_cases l T) as [HlT | HlT].
          * rewrite cos_product_sum by lia.
            destruct (Nat.eqb l (j + k)), (Nat.eqb j (l + k)); lra.
          * rewrite (Hx l HlT).
            destruct (Nat.eqb l (j + k)), (Nat.eqb j (l + k)); lra.
        + rewrite (Hx j HjT).
          destruct (Nat.eqb l (j + k)), (Nat.eqb j (l + k)); lra. }
  rewrite Rsum_plus, !Rsum_scal.
  (* the second double sum is the first one with the indices exchanged *)
  assert (Hsym : Rsum (fun j => Rsum (fun l => if Nat.eqb j (l + k)
                                               then x j * x l else 0) n) n
                 = Rsum (fun j => x j * x (j + k)%nat) n).
  { rewrite Rsum_swap. apply Rsum_ext_lt. intros l Hl.
    rewrite (Rsum_delta (fun j => x j * x l) (l + k) n).
    destruct (Nat.ltb_spec (l + k) n) as [_ | Hge]; [ring |].
    rewrite (Hx (l + k)%nat) by (unfold T in *; lia). ring. }
  rewrite Hsym.
  assert (Hext : Rsum (fun j => x j * x (j + k)%nat) n = lag_sum d k).
  { unfold lag_sum. fold T. apply Rsum_extend; [lia |].
    intros j Hj. change (x j * x (j + k)%nat = 0).
    rewrite (Hx j) by lia. ring. }
  rewrite Hext. field.
Qed.

Lemma xcov_re_lag d n k :
  (2 * length d - 1 <= n)%nat -> (k < length d)%nat ->
  xcov_re d n k = lag_sum d k.
Proof.
  intros Hn Hk.
  assert (Hn' : 0 < INR n) by (apply lt_0_INR; lia).
  rewrite xcov_re_sum, dft_lag_sum by assumption. field. lra.
Qed.

Close Scope R_scope.

(** X15. With [fft] and [ifft] bound to NumPy's transforms, [axcov] returns
    the autocovariance it is named after: for [0 <= maxlag < T] the result
    has [2 * maxlag + 1] entries, and the entries at lags [-k] and [+k] both
    hold the lagged product sum of the de-meaned trace divided by [T]; at lag
    zero this is the sample variance. *)
Theorem axcov_numpy_autocovariance (a : list R) (maxlag : Z) :
  (0 <= maxlag < Z.of_nat (length a))%Z ->
  let m := Z.to_nat maxlag in
  let T := length a in
  exists v,
    axcov numpy_fft_globals (Trace a) maxlag = Ok v /\
    length v = (2 * m + 1)%nat /\
    (forall k, (k <= m)%nat ->
       nth (m + k) v NaN = Fin (lag_sum (demean a) k / INR T)%R /\
       nth (m - k) v NaN = Fin (lag_sum (demean a) k / INR T)%R) /\
    nth m v NaN = Fin (sample_variance a).
Proof.
  intros Hm m T.
  destruct (axcov_numpy_symmetric_variance a maxlag Hm)
    as (v & Ev & Hlen & Hsym & Hvar).
  fold m in Hlen, Hsym, Hvar.
  exists v. split; [exact Ev |]. split; [exact Hlen |].
  split; [| exact Hvar].
  assert (Hpos : forall k, (k <= m)%nat ->
            nth (m + k) v NaN = Fin (lag_sum (demean a) k / INR T)%R).
  { intros k Hk.
    pose proof (axcov_numpy a maxlag Hm) as E. cbv zeta in E.
    rewrite Ev in E. inversion E as [Hv]. clear E.
    fold m T.
    set (n := fft_size T).
    assert (HT : (1 <= T)%nat) by (unfold T; lia).
    pose proof (fft_size_ge T HT) as Hn. fold n in Hn.
    rewrite nth_map_lt with (d' := 0%nat)
      by (rewrite length_app, !length_seq; lia).
    rewrite app_nth2 by (rewrite length_seq; lia).
    rewrite length_seq, seq_nth by lia.
    replace (0 + (m + k - m))%nat with k by lia.
    rewrite xcov_re_lag; [reflexivity | |];
      rewrite demean_length; fold T; unfold m in *; lia. }
  intros k Hk. split; [apply Hpos; exact Hk |].
  rewrite Hsym by exact Hk. apply Hpos. exact Hk.
Qed.

Lemma axcov_numpy_autocovariance_witness :
  exists v,
    axcov numpy_fft_globals (Trace trace_16) 3 = Ok v /\
    length v = 7%nat.
Proof.
  destruct (axcov_numpy_autocovariance trace_16 3) as (v & Ev & Hlen & _).
  - simpl. lia.
  - exists v. split; [exact Ev | exact Hlen].
Defined.

(** ** [estimate_time_constant] as the module binds its names *)

Lemma axcov_unbound_raises data maxlag :
  exists e, axcov module_globals data maxlag = Raise e.
Proof.
  destruct data; eexists; reflexivity.
Qed.

Lemma estimate_time_constant_unbound_raises
  (pinv : matrix -> result matrix) (Y : movie) (sn : list fval)
  (p : option Z) (lags : Z) (include_noise : bool)
  (pixels : option (list Z)) :
  match pixels with
  | None => (1 <= length (m_rows Y))%nat
  | Some px => px <> []
  end ->
  raises (estimate_time_constant pinv module_globals Y sn p lags
            include_noise pixels).
Proof.
  intros Hsel. unfold estimate_time_constant.
  destruct p as [p |]; [| eexists; reflexivity].
  assert (Hpix : (exists e,
             match pixels with
             | Some px => Ok px
             | None => n <- py_floordiv (n_pixels Y * Z.of_nat (m_T Y))
                                        (Z.of_nat (m_T Y)) ;;
                       Ok (py_range1 0 n)
             end = Raise e) \/
          (exists p0 px,
             match pixels with
             | Some px => Ok px
             | None => n <- py_floordiv (n_pixels Y * Z.of_nat (m_T Y))
                                        (Z.of_nat (m_T Y)) ;;
                       Ok (py_range1 0 n)
             end = Ok (p0 :: px))).
  { destruct pixels as [[| p0 px] |].
    - congruence.
    - right. eauto.
    - unfold py_floordiv.
      destruct (Z.eqb_spec (Z.of_nat (m_T Y)) 0) as [E | Hne];
        [left; eexists; reflexivity |].
      right. rewrite Z.div_mul by exact Hne. cbn [bind].
      unfold n_pixels. destruct (m_rows Y) as [| r0 rows];
        [simpl in Hsel; lia |].
      pose proof (py_range1_of_nat 0 (length (r0 :: rows))) as Hr.
      change (Z.of_nat 0 + Z.of_nat (length (r0 :: rows)))%Z
        with (Z.of_nat (length (r0 :: rows))) in Hr.
      change (Z.of_nat 0) with 0%Z in Hr. rewrite Hr.
      cbn [length seq map]. eauto. }
  destruct Hpix as [[e ->] | (p0 & px & ->)]; [eexists; reflexivity |].
  cbn [bind].
  destruct (np_zeros2 (Z.of_nat (length (p0 :: px))) (2 * (lags + p) + 1))
    as [XC |]; cbn [bind]; [| eexists; reflexivity].
  pose proof (py_range1_of_nat 0 (length (p0 :: px))) as Hr.
  change (Z.of_nat 0 + Z.of_nat (length (p0 :: px)))%Z
    with (Z.of_nat (length (p0 :: px))) in Hr.
  change (Z.of_nat 0) with 0%Z in Hr. rewrite Hr.
  cbn [length seq map].
  assert (Hbody : exists e,
            (pj <- get_item (p0 :: px) (Z.of_nat 0) ;;
             row <- get_item (m_rows Y) pj ;;
             ac <- axcov module_globals (np_squeeze row) (lags + p) ;;
             set_row XC (Z.of_nat 0) ac) = Raise e).
  { rewrite (get_item_of_nat (p0 :: px) 0 p0) by (simpl; lia).
    cbn [bind nth].
    destruct (get_item (m_rows Y) p0) as [row |]; cbn [bind];
      [| eexists; reflexivity].
    destruct (axcov_unbound_raises (np_squeeze row) (lags + p)) as [e ->].
    eexists. reflexivity. }
  destruct Hbody as [e He].
  cbn [foldM]. rewrite He. cbn [bind].
  eexists. reflexivity.
Qed.

(** X16. As the module is written, [estimate_time_constant] never returns
    once at least one pixel is selected (all pixels of a non-empty movie, or
    a non-empty list): if nothing fails earlier, the autocovariance of the
    first pixel raises, whatever the order, the lags, the noise flag and the
    pseudo-inverse. *)
Theorem estimate_time_constant_never_returns
  (pinv : matrix -> result matrix) (Y : movie) (sn : list fval)
  (p : option Z) (lags : Z) (include_noise : bool)
  (pixels : option (list Z)) :
  match pixels with
  | None => (1 <= length (m_rows Y))%nat
  | Some px => px <> []
  end ->
  raises (estimate_time_constant pinv module_globals Y sn p lags
            include_noise pixels) /\
  ~ returns (estimate_time_constant pinv module_globals Y sn p lags
               include_noise pixels).
Proof.
  intros Hsel.
  pose proof (estimate_time_constant_unbound_raises pinv Y sn p lags
                include_noise pixels Hsel) as Hr.
  split; [exact Hr |].
  destruct Hr as [e He]. intros [v Hv]. congruence.
Qed.

Lemma estimate_time_constant_never_returns_witness :
  raises (estimate_time_constant transpose_as_pinv module_globals movie_2x16
            [Fin 1%R; Fin 1%R] (Some 1%Z) 3 true (Some [1%Z])).
Proof.
  apply (estimate_time_constant_never_returns transpose_as_pinv movie_2x16
           [Fin 1%R; Fin 1%R] (Some 1%Z) 3 true (Some [1%Z])).
  discriminate.
Defined.

(** ** [interpolate_missing_data] and [preprocess_data] *)

Lemma any_nan_iff Y :
  any_nan Y = true <->
  exists row, In row (r_rows Y) /\ In Missing row.
Proof.
  unfold any_nan. rewrite existsb_exists. split.
  - intros (row & Hrow & Hex). apply existsb_exists in Hex.
    destruct Hex as (s & Hs & Hnan). destruct s; [discriminate |].
    exists row. split; assumption.
  - intros (row & Hrow & Hin). exists row. split; [exact Hrow |].
    apply existsb_exists. exists Missing. split; [exact Hin | reflexivity].
Qed.

(** X17. [interpolate_missing_data] interpolates nothing: it raises exactly
    when some sample is missing, and otherwise returns the movie as it is
    with an empty list of interpolated coordinates. *)
Theorem interpolate_missing_data_fills_nothing (Y : raw_movie) :
  (raises (interpolate_missing_data Y) <->
   exists row, In row (r_rows Y) /\ In Missing row) /\
  (forall Y' coor, interpolate_missing_data Y = Ok (Y', coor) ->
                   Y' = Y /\ coor = []).
Proof.
  unfold interpolate_missing_data. split.
  - rewrite <- any_nan_iff. destruct (any_nan Y); split.
    + reflexivity.
    + intros _. eexists. reflexivity.
    + intros [e He]. discriminate.
    + discriminate.
  - intros Y' coor H. destruct (any_nan Y); [discriminate |].
    inversion H. split; reflexivity.
Qed.

(** [preprocess_data] rejects a movie with a missing sample before
    anything else is looked at, whatever the other arguments. *)
Theorem preprocess_data_rejects_missing (pinv : matrix -> result matrix)
  (gl : namespace) (Y : raw_movie) (sn : option (list fval))
  (n_processes n_pixels_per_process : Z) (noise_range : Q * Q)
  (noise_method : string) (compute_g : bool) (p : option Z)
  (g : option (list fval)) (lags : Z) (include_noise : bool)
  (pixels : option (list Z)) :
  (exists row, In row (r_rows Y) /\ In Missing row) ->
  preprocess_data pinv gl Y sn n_processes n_pixels_per_process noise_range
    noise_method compute_g p g lags include_noise pixels
  = Raise (Exception
             "The algorithm has not been tested with missing values (NaNs)").
Proof.
  intros Hmiss. apply any_nan_iff in Hmiss.
  unfold preprocess_data, interpolate_missing_data. rewrite Hmiss.
  reflexivity.
Qed.

Lemma preprocess_data_rejects_missing_witness :
  preprocess_data transpose_as_pinv module_globals raw_2x2_missing None 4 100
    default_noise_range default_noise_method false (Some 2%Z) None 5 false
    None
  = Raise (Exception
             "The algorithm has not been tested with missing values (NaNs)").
Proof.
  apply (preprocess_data_rejects_missing transpose_as_pinv module_globals
           raw_2x2_missing).
  exists [Missing; Known 4%R]. split; [right; left; reflexivity |].
  left. reflexivity.
Defined.

(** X18. With a noise vector supplied and [compute_g] false,
    [preprocess_data] computes nothing: on a movie without missing samples
    it returns the movie and the noise vector as given and [None] for [g],
    so a time constant passed in as [g] is discarded. *)
Theorem preprocess_data_passes_through (pinv : matrix -> result matrix)
  (gl : namespace) (Y : raw_movie) (sn : list fval)
  (n_processes n_pixels_per_process : Z) (noise_range : Q * Q)
  (noise_method : string) (p : option Z) (g : option (list fval))
  (lags : Z) (include_noise : bool) (pixels : option (list Z)) :
  any_nan Y = false ->
  preprocess_data pinv gl Y (Some sn) n_processes n_pixels_per_process
    noise_range noise_method false p g lags include_noise pixels
  = Ok (Y, sn, None).
Proof.
  intros Hnan. unfold preprocess_data, interpolate_missing_data.
  rewrite Hnan. reflexivity.
Qed.

Lemma preprocess_data_passes_through_witness :
  preprocess_data transpose_as_pinv module_globals raw_3x4
    (Some [Fin 1%R; Fin 2%R; Fin 3%R]) 4 100 default_noise_range
    default_noise_method false (Some 2%Z) (Some [Fin 5%R]) 5 false None
  = Ok (raw_3x4, [Fin 1%R; Fin 2%R; Fin 3%R], None).
Proof.
  apply (preprocess_data_passes_through transpose_as_pinv module_globals
           raw_3x4).
  reflexivity.
Defined.

(** X19. As the module is written, [preprocess_data] with [compute_g] true
    never returns on a movie with at least one pixel (or a non-empty pixel
    list): whatever happens before, the time-constant estimation raises. *)
Theorem preprocess_data_compute_g_never_returns
  (pinv : matrix -> result matrix) (Y : raw_movie)
  (sn : option (list fval)) (n_processes n_pixels_per_process : Z)
  (noise_range : Q * Q) (noise_method : string) (p : option Z)
  (g : option (list fval)) (lags : Z) (include_noise : bool)
  (pixels : option (list Z)) :
  match pixels with
  | None => (1 <= length (r_rows Y))%nat
  | Some px => px <> []
  end ->
  raises (preprocess_data pinv module_globals Y sn n_processes
            n_pixels_per_process noise_range noise_method true p g lags
            include_noise pixels).
Proof.
  intros Hsel. unfold preprocess_data.
  destruct (interpolate_missing_data Y) as [[Y' coor] |] eqn:Ei;
    cbn [bind fst]; [| eexists; reflexivity].
  assert (HY : Y' = Y).
  { unfold interpolate_missing_data in Ei.
    destruct (any_nan Y); [discriminate |]. inversion Ei. reflexivity. }
  subst Y'.
  assert (Hsn : forall sn0 : list fval,
            exists e, estimate_time_constant pinv module_globals
                        (as_movie Y) sn0 p lags include_noise pixels
                      = Raise e).
  { intros sn0.
    apply estimate_time_constant_unbound_raises.
    destruct pixels; [exact Hsel |].
    unfold as_movie. simpl. rewrite length_map. exact Hsel. }
  destruct sn as [sn0 |]; cbn [bind].
  - destruct (Hsn sn0) as [e He]. rewrite He. eexists. reflexivity.
  - destruct (get_noise_fft_parallel module_globals (as_movie Y) n_processes
                n_pixels_per_process threading _) as [st |]; cbn [bind];
      [| eexists; reflexivity].
    destruct (Hsn (sn_s st)) as [e He]. rewrite He. eexists. reflexivity.
Qed.

Lemma preprocess_data_compute_g_never_returns_witness :
  raises (preprocess_data transpose_as_pinv module_globals raw_3x4 None 4 100
            default_noise_range default_noise_method true (Some 2%Z) None 5
            false None).
Proof.
  apply (preprocess_data_compute_g_never_returns transpose_as_pinv raw_3x4).
  simpl. lia.
Defined.



(** ** [find_unsaturated_pixels] *)

Open Scope R_scope.

Lemma sum_indicator (l : list bool) :
  fold_right Rplus 0 (map (fun b : bool => if b then 1 else 0) l)
  = INR (length (filter (fun b => b) l)).
Proof.
  induction l as [| b l IH]; [reflexivity |].
  cbn [map fold_right filter]. rewrite IH.
  destruct b; cbn [length]; [rewrite S_INR |]; lra.
Qed.

Lemma fraction_true_value (l : list bool) : l <> [] ->
  fraction_true l
  = Fin (INR (length (filter (fun b => b) l)) / INR (length l)).
Proof.
  intros Hne. unfold fraction_true.
  replace (map (fun b : bool => if b then Fin 1 else Fin 0) l)
    with (map Fin (map (fun b : bool => if b then 1 else 0) l)).
  - rewrite np_mean_fin, sum_indicator, length_map;
      [reflexivity | destruct l; [congruence | discriminate]].
  - rewrite map_map. apply map_ext. intros []; reflexivity.
Qed.

Lemma filter_map_length {A : Type} (f : A -> bool) (l : list A) :
  length (filter (fun b => b) (map f l)) = length (filter f l).
Proof.
  induction l as [| x l IH]; [reflexivity |]. simpl.
  destruct (f x); simpl; rewrite IH; reflexivity.
Qed.

(** Whether the mask of saturated pixels holds at a row. *)
Lemma saturated_row_iff (row : list R) (level : fval) (t : R) :
  fval_gt (fraction_true (map (fun y => sample_ge y level) row)) t = true
  <-> row <> [] /\ t < INR (count_ge row level) / INR (length row).
Proof.
  destruct row as [| y row].
  - simpl. split; [discriminate | intros [H _]; congruence].
  - rewrite fraction_true_value by discriminate.
    rewrite filter_map_length, length_map. unfold count_ge, fval_gt.
    destruct (Rlt_dec t _) as [Hlt | Hnlt].
    + split; [intros _; split; [discriminate | exact Hlt] | reflexivity].
    + split; [discriminate | intros [_ H]; contradiction].
Qed.

Lemma nonzero_spec (ind : list bool) i :
  In i (nonzero ind) <-> nth i ind false = true.
Proof.
  unfold nonzero. rewrite filter_In, in_seq. split.
  - intros [_ H]. exact H.
  - intros H. split; [| exact H].
    destruct (Nat.lt_ge_cases i (length ind)) as [Hlt | Hge]; [lia |].
    rewrite nth_overflow in H by exact Hge. discriminate.
Qed.

Lemma nonzero_sorted (ind : list bool) :
  StronglySorted lt (nonzero ind).
Proof.
  unfold nonzero. generalize 0%nat as s.
  induction (length ind) as [| n IH]; intros s; simpl.
  - constructor.
  - destruct (nth s ind false).
    + constructor; [apply IH |].
      apply Forall_forall. intros j Hj. apply filter_In in Hj.
      destruct Hj as [Hj _]. apply in_seq in Hj. lia.
    + apply IH.
Qed.

Lemma find_unsaturated_pixels_spec (Y : movie) (v thr t : R) :
  exists pixels,
    find_unsaturated_pixels Y (Some v) thr t = Ok pixels /\
    StronglySorted lt pixels /\
    forall i, In i pixels <->
              (i < length (m_rows Y))%nat /\
              row_at Y i <> [] /\
              t < INR (count_ge (row_at Y i) (Fin (thr * v)))
                  / INR (length (row_at Y i)).
Proof.
  unfold find_unsaturated_pixels. cbn [bind fmul].
  eexists. split; [reflexivity |]. split; [apply nonzero_sorted |].
  intros i. unfold np_where. rewrite nonzero_spec, map_map.
  destruct (Nat.lt_ge_cases i (length (m_rows Y))) as [Hlt | Hge].
  - rewrite nth_map_lt with (d' := []) by exact Hlt.
    fold (row_at Y i). rewrite saturated_row_iff. tauto.
  - rewrite nth_overflow by (rewrite length_map; exact Hge).
    split; [discriminate | intros [H _]; lia].
Qed.

Close Scope R_scope.

(** X21. With a saturation value given, [find_unsaturated_pixels] never
    raises and returns, in increasing order, exactly the pixels whose
    fraction of samples at or above
    [saturationThreshold * saturationValue] exceeds [saturationTime]: the
    pixels that are saturated. *)
Theorem find_unsaturated_pixels_returns_saturated (Y : movie)
  (v thr t : R) :
  exists pixels,
    find_unsaturated_pixels Y (Some v) thr t = Ok pixels /\
    StronglySorted lt pixels /\
    forall i, In i pixels <->
              (i < length (m_rows Y))%nat /\
              row_at Y i <> [] /\
              (t < INR (count_ge (row_at Y i) (Fin (thr * v)))
                   / INR (length (row_at Y i)))%R.
Proof.
  apply find_unsaturated_pixels_spec.
Qed.

Open Scope R_scope.

Lemma count_ge_all row x :
  Forall (fun y => x <= y) row -> count_ge row (Fin x) = length row.
Proof.
  intros H. unfold count_ge. induction H as [| y row Hy _ IH].
  - reflexivity.
  - cbn [filter].
    assert (E : sample_ge y (Fin x) = true).
    { unfold sample_ge. destruct (Rle_dec x y); [reflexivity | contradiction]. }
    rewrite E. cbn [length]. rewrite IH. reflexivity.
Qed.

Lemma count_ge_none row x :
  Forall (fun y => y < x) row -> count_ge row (Fin x) = 0%nat.
Proof.
  intros H. unfold count_ge. induction H as [| y row Hy _ IH].
  - reflexivity.
  - cbn [filter].
    assert (E : sample_ge y (Fin x) = false).
    { unfold sample_ge. destruct (Rle_dec x y); [lra | reflexivity]. }
    rewrite E. exact IH.
Qed.

(** X22. Despite its name, the function keeps the saturated pixels and
    drops the others: a pixel whose samples all reach the level is returned
    (for [saturationTime < 1]), and a pixel whose samples all stay below the
    level is not (for [saturationTime >= 0]). *)
Theorem find_unsaturated_pixels_keeps_saturated (Y : movie) (v thr t : R)
  (pixels : list nat) (i : nat) :
  find_unsaturated_pixels Y (Some v) thr t = Ok pixels ->
  (i < length (m_rows Y))%nat -> row_at Y i <> [] ->
  (Forall (fun y => thr * v <= y) (row_at Y i) -> t < 1 -> In i pixels) /\
  (Forall (fun y => y < thr * v) (row_at Y i) -> 0 <= t -> ~ In i pixels).
Proof.
  intros Hrun Hi Hne.
  destruct (find_unsaturated_pixels_spec Y v thr t) as (px & E & _ & Hin).
  rewrite Hrun in E. inversion E; subst px. clear E.
  assert (Hlen : 0 < INR (length (row_at Y i))).
  { apply lt_0_INR. destruct (row_at Y i); [congruence | simpl; lia]. }
  split.
  - intros Hall Ht. apply Hin. split; [exact Hi |]. split; [exact Hne |].
    rewrite count_ge_all by exact Hall.
    replace (INR (length (row_at Y i)) / INR (length (row_at Y i))) with 1
      by (field; lra).
    exact Ht.
  - intros Hall Ht Habs. apply Hin in Habs.
    destruct Habs as (_ & _ & Hlt).
    rewrite count_ge_none in Hlt by exact Hall.
    simpl INR in Hlt. unfold Rdiv in Hlt. rewrite Rmult_0_l in Hlt. lra.
Qed.

Lemma find_unsaturated_pixels_keeps_saturated_witness :
  exists pixels,
    find_unsaturated_pixels movie_const_2x4 (Some 10) (9 / 10) (5 / 1000)
    = Ok pixels /\
    ~ In 0%nat pixels.
Proof.
  destruct (find_unsaturated_pixels_spec movie_const_2x4 10 (9 / 10)
              (5 / 1000)) as (pixels & E & _).
  exists pixels. split; [exact E |].
  apply (find_unsaturated_pixels_keeps_saturated movie_const_2x4 10 (9 / 10)
           (5 / 1000) pixels 0 E).
  - simpl. lia.
  - discriminate.
  - unfold row_at. simpl. repeat constructor; lra.
  - lra.
Defined.

Lemma Rceil_spec x : IZR (Rceil x) - 1 < x <= IZR (Rceil x).
Proof.
  unfold Rceil. rewrite minus_IZR.
  destruct (archimed (- x)) as [H1 H2]. lra.
Qed.

Lemma ln2_pos : 0 < ln 2.
Proof. pose proof ln_lt_2. lra. Qed.

Lemma Rpower_2_log2 x : 0 < x -> Rpower 2 (ln x / ln 2) = x.
Proof.
  intros Hx. unfold Rpower.
  replace (ln x / ln 2 * ln 2) with (ln x)
    by (field; pose proof ln2_pos; lra).
  apply exp_ln. exact Hx.
Qed.

Lemma Rpower_2_le a b : a <= b -> Rpower 2 a <= Rpower 2 b.
Proof.
  intros [Hlt | ->]; [| lra]. left. apply Rpower_lt; lra.
Qed.

Lemma fold_Rmax_spec xs x :
  let mx := fold_left Rmax xs x in
  In mx (x :: xs) /\ Forall (fun y => y <= mx) (x :: xs).
Proof.
  revert x. induction xs as [| y xs IH]; intros x; simpl.
  - split; [left; reflexivity | repeat constructor; lra].
  - destruct (IH (Rmax x y)) as [Hin Hall]. simpl in Hin, Hall.
    inversion Hall as [| ? ? Hm Hrest]; subst.
    split.
    + destruct Hin as [Heq | Hin]; [| right; right; exact Hin].
      rewrite <- Heq. unfold Rmax. destruct (Rle_dec x y); auto.
    + pose proof (Rmax_l x y). pose proof (Rmax_r x y).
      constructor; [lra |]. constructor; [lra | exact Hrest].
Qed.



Close Scope R_scope.
